(** * pyQCD post-processing: a shallow embedding and its specification

    The development follows the two post-processing modules of pyQCD:
    - [postprocess/statistics.py] (binning, bootstrap resampling),
    - [pyQCD/postprocessing/measurements.py] (fits, autocorrelation,
      lattice spacing, meson correlators).

    Conventions of the embedding.
    - Python 2 integers are [Z]; [/] and [%] on them are floor division and
      the remainder with the sign of the divisor, which are [Z.div] and
      [Z.modulo]; a zero divisor raises [ZeroDivisionError].
    - Python exceptions are the constructors of [exn]; a function that can
      raise returns a [result].
    - Floating-point arrays are arrays over a real field [R] (or a closed
      field [C] for complex arrays) with exact arithmetic.  Rounding is not
      modelled, and numpy's [nan]/[inf] (mean of an empty slice, division
      by zero), which raise nothing, have no counterpart: the field's
      [x / 0 = 0] stands where they would appear and no statement below
      depends on such a value.
    - One-dimensional arrays are sequences; the tensors of the correlator
      code are arrays given by a shape and an entry function.
    - The external collaborators (scipy's [leastsq], [exp], [sqrt], [pi],
      the Gamma-matrix constants, the propagator loader) are parameters.
    - What is printed is a list of strings threaded through the functions
      that print.

    - numpy's random generator is an explicit state passed to and
      returned by [bootstrap].

    [pyQCD/core/simulation.py] (the simulation driver) is not part of the
    development.

    The file has three parts: the embedding of the code, the quantities
    the specification names together with small concrete inputs, and the
    properties. *)

From Stdlib Require Import ZArith Lia String DecimalString.
From HB Require Import structures.
From mathcomp Require Import boot order algebra.
From mathcomp Require Import algC.

Set Implicit Arguments.
Unset Strict Implicit.
Unset Printing Implicit Defensive.

Import GRing.Theory Num.Theory.

(** MathComp binds the key [Z] to its own integers; Python integers are
    Stdlib's [Z], written in the scope [pz]. *)
Delimit Scope Z_scope with pz.

(** ** Python substrate *)

Module Py.

(** The exceptions the modelled code can raise. *)
Inductive exn : Type :=
  | ZeroDivisionError
  | NameError of string
  | IndexError
  | ValueError
  | KeyError.

Inductive result (A : Type) : Type :=
  | Ok of A
  | Raise of exn.

Arguments Raise {A} e.

Definition bind {A B : Type} (m : result A) (k : A -> result B) : result B :=
  match m with
  | Ok a => k a
  | Raise e => Raise e
  end.

Definition raises {A : Type} (m : result A) : bool :=
  if m is Raise _ then true else false.

(** [a % b] and [a / b] on Python 2 integers. *)
Definition py_mod (a b : Z) : result Z :=
  if (b =? 0)%pz then Raise ZeroDivisionError else Ok (a mod b)%pz.

Definition py_floordiv (a b : Z) : result Z :=
  if (b =? 0)%pz then Raise ZeroDivisionError else Ok (a / b)%pz.

(** [xrange(n)]: empty when [n <= 0]. *)
Definition xrange (n : Z) : seq nat := iota 0 (Z.to_nat n).

(** A bound of a slice [s[lo:hi]] on a sequence of length [n]: negative
    bounds count from the end, and every bound is clamped to [0, n]. *)
Definition slice_bound (n : nat) (k : Z) : nat :=
  Z.to_nat (if (k <? 0)%pz then Z.max 0 (k + Z.of_nat n)
            else Z.min k (Z.of_nat n)).

Definition py_slice {T : Type} (s : seq T) (lo hi : Z) : seq T :=
  drop (slice_bound (size s) lo) (take (slice_bound (size s) hi) s).

(** [for i in items: st = body(i, st)], stopping at the first exception. *)
Fixpoint for_each {I S : Type} (body : I -> S -> result S) (items : seq I)
    (st : S) : result S :=
  match items with
  | [::] => Ok st
  | i :: rest => bind (body i st) (for_each body rest)
  end.

(** [[1, 2, 3, 4].count(x)] on a list of integers. *)
Definition list_count (s : seq Z) (x : Z) : nat :=
  count (fun y => (y =? x)%pz) s.

End Py.

Import Py.

Notation "'let!' x ':=' e 'in' k" := (Py.bind e (fun x => k))
  (at level 200, x name, e at level 100, k at level 200,
   format "'[v' 'let!'  x  ':='  e  'in' '/' k ']'").

(** ** numpy (pylab) on one-dimensional real arrays *)

Section Numpy1.

Variable R : realFieldType.
Local Open Scope ring_scope.

(** [pl.size(a, axis = 0)] *)
Definition pl_size (a : seq R) : Z := Z.of_nat (size a).

(** [pl.zeros(n)]: a negative dimension is a [ValueError]. *)
Definition pl_zeros (n : Z) : result (seq R) :=
  if (n <? 0)%pz then Raise ValueError else Ok (nseq (Z.to_nat n) 0).

(** [pl.mean(a)] *)
Definition pl_mean (a : seq R) : R := (\sum_(x <- a) x) / (size a)%:R.

(** [a[i] = v]: an index outside the array is an [IndexError]. *)
Definition setitem {T : Type} (x0 : T) (a : seq T) (i : nat) (v : T) :
    result (seq T) :=
  if (i < size a)%N then Ok (set_nth x0 a i v) else Raise IndexError.

(** [a - m] and [a * b] (elementwise, equal lengths). *)
Definition sub_scalar (a : seq R) (m : R) : seq R := [seq x - m | x <- a].

Definition mul_arrays (a b : seq R) : seq R :=
  [seq p.1 * p.2 | p <- zip a b].

(** [pl.roll(a, shift)]: numpy reduces the shift modulo the length [n] and
    takes the entries [n - shift .. n - 1] followed by [0 .. n - shift - 1];
    an empty array is returned as it is. *)
Definition pl_roll {T : Type} (a : seq T) (shift : Z) : seq T :=
  let n := size a in
  if n is 0%N then a
  else let k := (n - Z.to_nat (shift mod Z.of_nat n))%N in
       drop k a ++ take k a.

(** [pl.arange(lo, hi)] as an array of reals. *)
Definition pl_arange (lo hi : nat) : seq R :=
  [seq i%:R | i <- iota lo (hi - lo)].

End Numpy1.

(** ** postprocess/statistics.py *)

Section Statistics.

Variable R : realFieldType.
Local Open Scope ring_scope.

(** The objects a module-level name can be bound to. *)
Inductive pyobj : Type :=
  | PyModule
  | PyFunction
  | PyArray of seq R.

(** A module namespace: the bindings of its global names. *)
Definition namespace : Type := seq (string * pyobj).

(** Reading a free name of a function body. *)
Fixpoint load_global (g : namespace) (name : string) : result pyobj :=
  match g with
  | [::] => Raise (NameError name)
  | (k, v) :: g' => if String.eqb k name then Ok v else load_global g' name
  end.

(** [[i for i in pl.shape(obj)]]: the shape of a one-dimensional array is
    its length; a module or a function has the empty shape. *)
Definition pl_shape (obj : pyobj) : seq Z :=
  if obj is PyArray a then [:: pl_size a] else [::].

(** [dims[0]] *)
Definition first_dim (dims : seq Z) : result Z :=
  if dims is d :: _ then Ok d else Raise IndexError.

(** [bin(X, binsize)], run in a module namespace [g].  The body reads the
    name [Ws], which is neither a parameter nor a local: it is looked up in
    the module's globals. *)
Definition bin_in (g : namespace) (X : seq R) (binsize : Z) :
    result (seq R) :=
  if (binsize =? 1)%pz then Ok X
  else
    let! m := py_mod (pl_size X) binsize in
    let extra := (if (m =? 0)%pz then 0 else 1)%pz in
    let! Ws := load_global g "Ws" in
    let dims := pl_shape Ws in
    let! d0 := first_dim dims in
    let! q := py_floordiv d0 binsize in
    let! X_binned := pl_zeros R (q + extra) in
    for_each
      (fun i Xb =>
         setitem 0 Xb i
           (pl_mean (py_slice X (Z.of_nat i * binsize)
                                (Z.of_nat i.+1 * binsize))))
      (xrange (Z.of_nat (size X_binned))) X_binned.

(** The globals of [statistics.py] as the file defines them: the imported
    module [pl] and the two functions. *)
Definition statistics_globals : namespace :=
  [:: ("pl"%string, PyModule); ("bin"%string, PyFunction);
      ("bootstrap"%string, PyFunction)].

Definition bin (X : seq R) (binsize : Z) : result (seq R) :=
  bin_in statistics_globals X binsize.

End Statistics.

Arguments PyModule {R}.
Arguments PyFunction {R}.

(** ** pyQCD/postprocessing/measurements.py: autocorrelation *)

Section AutoCorrelation.

Variable R : realFieldType.
Local Open Scope ring_scope.

Definition auto_correlation (plaquettes : seq R) : result (seq R) :=
  let mean_plaquette := pl_mean plaquettes in
  let num_configs := (pl_size plaquettes / 2)%pz in
  let! auto_corr := pl_zeros R num_configs in
  for_each
    (fun t ac =>
       setitem 0 ac t
         (pl_mean (mul_arrays
                     (sub_scalar plaquettes mean_plaquette)
                     (sub_scalar (pl_roll plaquettes (- Z.of_nat t))
                                 mean_plaquette))))
    (xrange num_configs) auto_corr.

End AutoCorrelation.

(** ** pyQCD/postprocessing/measurements.py: the fits *)

(** A value that is either one item or a stack of items along a leading
    batch axis; the code tells the two apart by the rank of the array
    ([len(pl.shape(x))]). *)
Inductive batched (T : Type) : Type :=
  | Single of T
  | Batch of seq T.

Section Fits.

Variable R : realFieldType.
Local Open Scope ring_scope.

(** [pl.exp] and [pl.sqrt] on reals. *)
Variables (exp sqrt : R -> R).

(** A residual function as scipy calls it: [func(b, *args)] with the two
    extra arguments of the code's [args = (x, y)]. *)
Definition residual_fn : Type := seq R -> seq R -> seq R -> seq R.

(** [optimize.leastsq(func, x0, args = (x, y))]: the fitted parameters and
    the solver's integer status. *)
Variable leastsq : residual_fn -> seq R -> seq R * seq R -> seq R * Z.

(** [b[i]] *)
Definition getitem (b : seq R) (i : nat) : R := nth 0 b i.

(** [y - f], elementwise. *)
Definition sub_arrays (y f : seq R) : seq R :=
  [seq p.1 - p.2 | p <- zip y f].

Definition pair_potential (b r : seq R) : seq R :=
  [seq getitem b 0 * x + getitem b 1 / x + getitem b 2 | x <- r].

(** [err_func = lambda b, r, y: y - pair_potential(b, r)] *)
Definition err_func : residual_fn :=
  fun b r y => sub_arrays y (pair_potential b r).

Definition fit_warning : string := "Warning! Fit failed.".

(** The rank-1 branch of [potential_params]; [out] is what has been
    printed so far. *)
Definition potential_params_curve (data : seq R) (out : seq string) :
    seq R * seq string :=
  let r := pl_arange R 1 (size data + 1) in
  let b0 := [:: 1; 1; 1] in
  let: (b, result) := leastsq err_func b0 (r, data) in
  let out := if (list_count [:: 1; 2; 3; 4]%pz result < 1)%N
             then rcons out fit_warning else out in
  (b, out).

(** [potential_params(data)]: a curve is fitted; a batch is fitted member
    by member (the recursive call on [data[i]] takes the rank-1 branch)
    into the rows of [b_store]. *)
Definition potential_params (data : batched (seq R)) (out : seq string) :
    result (batched (seq R) * seq string) :=
  match data with
  | Single curve =>
      let: (b, out) := potential_params_curve curve out in
      Ok (Single b, out)
  | Batch curves =>
      let b_store := nseq (size curves) (nseq 3 (0 : R)) in
      let! st :=
        for_each
          (fun i (st : seq (seq R) * seq string) =>
             let: (b, out) :=
               potential_params_curve (nth [::] curves i) st.2 in
             let! b_store := setitem [::] st.1 i b in
             Ok (b_store, out))
          (xrange (Z.of_nat (size curves))) (b_store, out) in
      Ok (Batch st.1, st.2)
  end.

(** [f = lambda b, t, W: W - b[0] * pl.exp(-b[1] * t)] *)
Definition decay_residual : residual_fn :=
  fun b t W =>
    sub_arrays W [seq getitem b 0 * exp (- getitem b 1 * x) | x <- t].

(** The rank-2 branch of [calculate_potential]: one exponential fit per
    separation (row), all on the times [t = 1 .. T] where [T] is the
    length of axis 1. *)
Definition calculate_potential_loops (wilson_loops : seq (seq R)) :
    result (seq R) :=
  let potentials := nseq (size wilson_loops) (0 : R) in
  let t := pl_arange R 1 (size (head [::] wilson_loops) + 1) in
  for_each
    (fun i potentials =>
       let: (params, result) :=
         leastsq decay_residual [:: 1; 1] (t, nth [::] wilson_loops i) in
       setitem 0 potentials i (getitem params 1))
    (xrange (Z.of_nat (size wilson_loops))) potentials.

(** [calculate_potential(wilson_loops)]: rank 2 is fitted; a higher rank is
    processed member by member along the leading axis (each member of a
    rank-3 batch takes the rank-2 branch). *)
Definition calculate_potential (wilson_loops : batched (seq (seq R))) :
    result (batched (seq R)) :=
  match wilson_loops with
  | Single W =>
      let! potentials := calculate_potential_loops W in
      Ok (Single potentials)
  | Batch Ws =>
      let potentials := nseq (size Ws) (nseq (size (head [::] Ws)) (0 : R)) in
      let! potentials :=
        for_each
          (fun i potentials =>
             let! p := calculate_potential_loops (nth [::] Ws i) in
             setitem [::] potentials i p)
          (xrange (Z.of_nat (size Ws))) potentials in
      Ok (Batch potentials)
  end.

(** The Sommer relation of the last lines of [calculate_spacing]. *)
Definition sommer (b0 b1 : R) : R :=
  2%:R^-1 / sqrt ((33%:R / 20%:R + b1) / b0).

(** [fit_params[:, j]] *)
Definition column (m : seq (seq R)) (j : nat) : seq R :=
  [seq getitem row j | row <- m].

Definition calculate_spacing (wilson_loops : batched (seq (seq R)))
    (out : seq string) : result (batched R * seq string) :=
  let! potentials := calculate_potential wilson_loops in
  let! fit := potential_params potentials out in
  let: (fit_params, out) := fit in
  match fit_params with
  | Batch rows =>
      Ok (Batch [seq sommer p.1 p.2
                | p <- zip (column rows 0) (column rows 1)], out)
  | Single b => Ok (Single (sommer (getitem b 0) (getitem b 1)), out)
  end.

End Fits.

(** ** numpy on tensors *)

Section Tensors.

Variable C : numClosedFieldType.
Local Open Scope ring_scope.

(** An array of any rank: its shape and its entry at a multi-index.  The
    operations below are numpy's on well-shaped operands; numpy rejects
    operands whose shapes do not fit with a [ValueError], which the
    statements about them exclude by hypotheses on the shapes. *)
Record ndarray : Type := NdArray { shape : seq nat; item : seq nat -> C }.

(** Dropping an axis from a shape or a multi-index, and putting an index
    back at an axis. *)
Definition del_axis (ax : nat) (s : seq nat) : seq nat :=
  take ax s ++ drop ax.+1 s.

Definition ins_axis (ax k : nat) (s : seq nat) : seq nat :=
  take ax s ++ k :: drop ax s.

Definition swap_axes (i j : nat) (s : seq nat) : seq nat :=
  set_nth 0%N (set_nth 0%N s i (nth 0%N s j)) j (nth 0%N s i).

(** [pl.tensordot(a, b, (axa, axb))]: the sum over the paired axes; the
    remaining axes of [a] come first, then those of [b]. *)
Definition pl_tensordot (a b : ndarray) (axa axb : nat) : ndarray :=
  let ra := (size (shape a)).-1 in
  NdArray (del_axis axa (shape a) ++ del_axis axb (shape b))
    (fun ix =>
       \sum_(k < nth 0%N (shape a) axa)
         item a (ins_axis axa k (take ra ix))
         * item b (ins_axis axb k (drop ra ix))).

(** [pl.dot(a, b)] on matrices. *)
Definition pl_dot (a b : ndarray) : ndarray := pl_tensordot a b 1 0.

(** [pl.swapaxes(a, i, j)] *)
Definition pl_swapaxes (a : ndarray) (i j : nat) : ndarray :=
  NdArray (swap_axes i j (shape a)) (fun ix => item a (swap_axes i j ix)).

(** [pl.conj(a)] and [a.real] *)
Definition pl_conj (a : ndarray) : ndarray :=
  NdArray (shape a) (fun ix => (item a ix)^*).

Definition pl_real (a : ndarray) : ndarray :=
  NdArray (shape a) (fun ix => 'Re (item a ix)).

(** [pl.einsum('xijab,xijab->x', p, q)] *)
Definition einsum_xijab_xijab_x (p q : ndarray) : ndarray :=
  let d := nth 0%N (shape p) in
  NdArray [:: d 0%N]
    (fun ix =>
       let x := nth 0%N ix 0 in
       \sum_(i < d 1%N) \sum_(j < d 2) \sum_(a < d 3) \sum_(b < d 4)
         item p [:: x; val i; val j; val a; val b]
         * item q [:: x; val i; val j; val a; val b]).

(** [pl.einsum('ij,xjlab,lm,ximab->x', g2, p1, g3, p2)]: the one-step
    contraction kept in the source as the reference for the staged code.
    Every index other than [x] is summed, here in the order in which the
    letters appear. *)
Definition einsum_ij_xjlab_lm_ximab_x (g2 p1 g3 p2 : ndarray) : ndarray :=
  let d := nth 0%N (shape p1) in
  NdArray [:: d 0%N]
    (fun ix =>
       let x := nth 0%N ix 0 in
       \sum_(i < d 1%N) \sum_(j < d 1%N) \sum_(l < d 2) \sum_(a < d 3)
       \sum_(b < d 4) \sum_(m < d 2)
         item g2 [:: val i; val j] * item p1 [:: x; val j; val l; val a; val b]
         * item g3 [:: val l; val m]
         * item p2 [:: x; val i; val m; val a; val b]).

(** [pl.reshape(a, (t, v))] on a rank-1 array, in row-major order. *)
Definition pl_reshape2 (a : ndarray) (t v : nat) : result ndarray :=
  if shape a == [:: (t * v)%N]
  then Ok (NdArray [:: t; v]
             (fun ix => item a [:: (nth 0%N ix 0 * v + nth 0%N ix 1)%N]))
  else Raise ValueError.

(** [pl.einsum('ij,j', a, e)] *)
Definition einsum_ij_j (a e : ndarray) : ndarray :=
  NdArray [:: nth 0%N (shape a) 0]
    (fun ix =>
       \sum_(s < nth 0%N (shape a) 1)
         item a [:: nth 0%N ix 0; val s] * item e [:: val s]).

(** [pl.arange(n)] as a rank-1 array. *)
Definition nd_arange (n : nat) : ndarray :=
  NdArray [:: n] (fun ix => (nth 0%N ix 0)%:R).

(** [pl.zeros(sh)] *)
Definition nd_zeros (sh : seq nat) : ndarray := NdArray sh (fun _ => 0).

(** [c[i, :, j] = v] on a rank-3 array: [i] and [j] must lie inside the
    array ([IndexError]) and [v] must fill axis 1 ([ValueError]). *)
Definition set_column (c : ndarray) (i j : nat) (v : ndarray) :
    result ndarray :=
  if ~~ ((i < nth 0%N (shape c) 0) && (j < nth 0%N (shape c) 2))%N
  then Raise IndexError
  else if shape v != [:: nth 0%N (shape c) 1] then Raise ValueError
  else Ok (NdArray (shape c)
             (fun ix =>
                if (nth 0%N ix 0 == i) && (nth 0%N ix 2 == j)
                then item v [:: nth 0%N ix 1] else item c ix)).

End Tensors.

(** ** pyQCD/postprocessing/measurements.py: the correlators *)

Section Correlators.

Variable C : numClosedFieldType.
Local Open Scope ring_scope.

(** [pl.exp] on complex numbers and [pl.pi]. *)
Variable cexp : C -> C.
Variable pi : C.

(** [pyQCD.interfaces.constants]: [gamma5] and the values of the
    dictionary [Gammas], in the order [itervalues()] yields them. *)
Variable gamma5 : ndarray C.
Variable Gammas_values : seq (seq (ndarray C)).

(** A propagator file ([keys()]) and [io.load_propagator]. *)
Variables (prop_file key : Type).
Variable keys : prop_file -> seq key.
Variable load_propagator : prop_file -> key -> result (ndarray C).

Definition compute_correlator (prop1 prop2 Gamma : ndarray C) : ndarray C :=
  let Gamma2 := pl_dot Gamma gamma5 in
  let Gamma3 := pl_dot gamma5 Gamma in
  let product1 :=
    pl_swapaxes (pl_tensordot Gamma2 (pl_conj prop1) 1 1) 0 1 in
  let product2 :=
    pl_swapaxes (pl_tensordot Gamma3 prop2 1 2) 0 1 in
  let product2 := pl_swapaxes product2 1 2 in
  let correlator := einsum_xijab_xijab_x product1 product2 in
  pl_real correlator.

(** [list(itertools.product(xrange(X), xrange(Y), xrange(Z)))] *)
Definition lattice_sites (X Y Z : nat) : seq (seq nat) :=
  flatten [seq [seq [:: x; y; z] | y <- iota 0 Y, z <- iota 0 Z]
          | x <- iota 0 X].

(** [2 * pl.pi / N] for a Python integer [N]. *)
Definition momentum_prefactor (N : nat) : result C :=
  if N is 0%N then Raise ZeroDivisionError else Ok (2%:R * pi / N%:R).

(** [pl.exp(1j * pl.einsum('ij,j,j', sites, momentum,
    momentum_prefactors))] *)
Definition exponentials (sites : seq (seq nat)) (momentum prefactors : seq C)
    : ndarray C :=
  NdArray [:: size sites]
    (fun ix =>
       cexp ('i * \sum_(j < 3)
                    (nth 0%N (nth [::] sites (nth 0%N ix 0)) j)%:R
                    * nth 0 momentum j * nth 0 prefactors j)).

(** The body of the loop over the 16 Gamma matrices. *)
Definition gamma_step (prop1 prop2 : ndarray C) (T : nat)
    (sites : seq (seq nat)) (momentum prefactors : seq C) (i : nat)
    (jG : nat * ndarray C) (correlators : ndarray C) : result (ndarray C) :=
  let! pos_correl :=
    pl_reshape2 (compute_correlator prop1 prop2 jG.2) T (size sites) in
  let e := exponentials sites momentum prefactors in
  set_column correlators i jG.1.+1 (pl_real (einsum_ij_j pos_correl e)).

(** [enumerate(s)] *)
Definition enumerate {A : Type} (s : seq A) : seq (nat * A) :=
  zip (iota 0 (size s)) s.

Definition pair_message (i : nat) : string :=
  "Calculating correlators for propagator pair "
  ++ NilEmpty.string_of_uint (Nat.to_uint i) ++ "... ".

(** [meson_spec(prop_file1, prop_file2, lattice_shape, momentum)]; the
    state of the outer loop is the array under construction and what has
    been printed. *)
Definition meson_spec (prop_file1 prop_file2 : prop_file)
    (lattice_shape : nat * nat * nat * nat) (momentum : C * C * C) :
    result (ndarray C * seq string) :=
  let: (T, X, Y, Z) := lattice_shape in
  let momentum := [:: momentum.1.1; momentum.1.2; momentum.2] in
  let num_props := size (keys prop_file1) in
  let correlators := nd_zeros C [:: num_props; T; 17] in
  let Gammas := flatten Gammas_values in
  let sites := lattice_sites X Y Z in
  let! fx := momentum_prefactor X in
  let! fy := momentum_prefactor Y in
  let! fz := momentum_prefactor Z in
  let momentum_prefactors := [:: fx; fy; fz] in
  for_each
    (fun (ik : nat * key) (st : ndarray C * seq string) =>
       let: (i, k) := ik in
       let out := rcons st.2 (pair_message i) in
       let! prop1 := load_propagator prop_file1 k in
       let! prop2 := load_propagator prop_file2 k in
       let! correlators := set_column st.1 i 0 (nd_arange C T) in
       let! correlators :=
         for_each
           (gamma_step prop1 prop2 T sites momentum momentum_prefactors i)
           (enumerate Gammas) correlators in
       Ok (correlators, rcons out "Done!"%string))
    (enumerate (keys prop_file1)) (correlators, [::]).

End Correlators.

(** ** The quantities the specification names

    These definitions follow the words of the specification; the theorems
    compare them with what the code computes. *)

Section SpecQuantities.

Variable R : realFieldType.
Local Open Scope ring_scope.

(** [(i - t) mod N], the index of the circular lag. *)
Definition cyclic_index (N i t : nat) : nat :=
  Z.to_nat ((Z.of_nat i - Z.of_nat t) mod Z.of_nat N).

(** The mean over all [i] of [(S[i] - mu) * (S[(i - t) mod N] - mu)]. *)
Definition lagged_product_mean (S : seq R) (t : nat) : R :=
  let mu := pl_mean S in
  pl_mean [seq (nth 0 S i - mu) * (nth 0 S (cyclic_index (size S) i t) - mu)
          | i <- iota 0 (size S)].

(** The population variance. *)
Definition variance (S : seq R) : R :=
  let mu := pl_mean S in pl_mean [seq (x - mu) ^+ 2 | x <- S].

End SpecQuantities.

Section SpecFits.

Variable R : realFieldType.
Local Open Scope ring_scope.

Variables (exp sqrt : R -> R).
Variable leastsq : residual_fn R -> seq R -> seq R * seq R -> seq R * Z.

(** The success set of the solver's status. *)
Definition solver_success (ier : Z) : bool :=
  [|| (ier =? 1)%pz, (ier =? 2)%pz, (ier =? 3)%pz | (ier =? 4)%pz].

(** The exponential-decay fit of one Wilson-loop array: for each
    separation, the second parameter of the fit of its time profile. *)
Definition fit_decay (W : seq (seq R)) : seq R :=
  let t := pl_arange R 1 (size (head [::] W) + 1) in
  [seq nth 0 (leastsq (decay_residual exp) [:: 1; 1] (t, row)).1 1 | row <- W].

(** The pair-potential fit of one curve: parameters and solver status. *)
Definition fit_potential (data : seq R) : seq R * Z :=
  leastsq (@err_func R) [:: 1; 1; 1] (pl_arange R 1 (size data + 1), data).

(** What a batch of pair-potential fits prints: one warning for each
    member whose status is outside the success set, in order. *)
Definition fit_warnings (curves : seq (seq R)) (out : seq string) :
    seq string :=
  foldl (fun out c => if solver_success (fit_potential c).2 then out
                      else rcons out fit_warning)
        out curves.

(** [a = 0.5 / sqrt((1.65 + b1) / b0)] on the parameters fitted to the
    decay rates of one Wilson-loop array, [b0] the first and [b1] the
    second of them. *)
Definition spacing_of_loops (W : seq (seq R)) : R :=
  let b := (fit_potential (fit_decay W)).1 in
  let b0 := nth 0 b 0 in
  let b1 := nth 0 b 1 in
  2%:R^-1 / sqrt ((33%:R / 20%:R + b1) / b0).

End SpecFits.

(** A solver that makes no progress: it hands back the initial guess with
    the status 5 (iteration limit reached). *)
Definition leastsq_no_progress (R : realFieldType) (f : residual_fn R)
    (x0 : seq R) (args : seq R * seq R) : seq R * Z := (x0, 5%pz).

Section SpecCorrelators.

Variable C : numClosedFieldType.
Local Open Scope ring_scope.

Variable cexp : C -> C.
Variable pi : C.
Variable gamma5 : ndarray C.
Variables (prop_file key : Type).
Variable load_propagator : prop_file -> key -> result (ndarray C).

(** The one-step contraction that the source keeps in a comment as the
    reference for the staged code,
    [einsum('ij,xjlab,lm,ximab->x', Gamma2, conj(prop1), Gamma3,
    prop2).real], on the operands of [compute_correlator].  This is the
    source's own reference, not the formula of the specification, which
    follows below. *)
Definition one_step_correlator (prop1 prop2 Gamma : ndarray C) : ndarray C :=
  pl_real (einsum_ij_xjlab_lm_ximab_x
             (pl_dot Gamma gamma5) (pl_conj prop1)
             (pl_dot gamma5 Gamma) prop2).

(** The formula of the specification is a chain of matrix products.  A
    propagator at a site is a matrix on spin (x) colour, with the entry at
    row [(i, a)] and column [(j, b)]; a Gamma matrix acts on the spin
    index alone. *)
Definition sc_matrix : Type := nat -> nat -> nat -> nat -> C.

Definition prop_at (p : ndarray C) (x : nat) : sc_matrix :=
  fun i a j b => item p [:: x; i; j; a; b].

Definition sc_conj (M : sc_matrix) : sc_matrix :=
  fun i a j b => (M i a j b)^*.

Definition sc_transpose (M : sc_matrix) : sc_matrix :=
  fun i a j b => M j b i a.

(** The product of two matrices on spin (x) colour, the product of a spin
    matrix with one, and the trace. *)
Definition sc_mul (ns nc : nat) (M N : sc_matrix) : sc_matrix :=
  fun i a j b => \sum_(k < ns) \sum_(c < nc) M i a k c * N k c j b.

Definition spin_mul (ns : nat) (g : ndarray C) (M : sc_matrix) : sc_matrix :=
  fun i a j b => \sum_(k < ns) item g [:: i; val k] * M k a j b.

Definition sc_trace (ns nc : nat) (M : sc_matrix) : C :=
  \sum_(i < ns) \sum_(a < nc) M i a i a.

(** [Re (sum over spin and colour of A . B . G . D)] for spin matrices [A]
    and [G] and matrices [B] and [D] on spin (x) colour. *)
Definition chain_trace (ns nc : nat) (A : ndarray C) (B : sc_matrix)
    (G : ndarray C) (D : sc_matrix) : C :=
  'Re (sc_trace ns nc (spin_mul ns A (sc_mul ns nc B (spin_mul ns G D)))).

(** The contraction as the specification writes it, site by site:
    [Re (sum over spin and colour of (Gamma . gamma5)^t . conj(prop1(x)) .
    (gamma5 . Gamma) . prop2(x))]. *)
Definition claimed_contraction (prop1 prop2 Gamma : ndarray C) : ndarray C :=
  let ns := nth 0%N (shape prop1) 1 in
  let nc := nth 0%N (shape prop1) 3 in
  NdArray [:: nth 0%N (shape prop1) 0]
    (fun ix =>
       let x := nth 0%N ix 0 in
       chain_trace ns nc
         (pl_swapaxes (pl_dot Gamma gamma5) 0 1) (sc_conj (prop_at prop1 x))
         (pl_dot gamma5 Gamma) (prop_at prop2 x)).

(** The same chain with the transpose on the second propagator (in spin
    and in colour) instead of on [Gamma . gamma5]:
    [Re (sum over spin and colour of (Gamma . gamma5) . conj(prop1(x)) .
    (gamma5 . Gamma) . prop2(x)^t)]. *)
Definition transposed_contraction (prop1 prop2 Gamma : ndarray C) :
    ndarray C :=
  let ns := nth 0%N (shape prop1) 1 in
  let nc := nth 0%N (shape prop1) 3 in
  NdArray [:: nth 0%N (shape prop1) 0]
    (fun ix =>
       let x := nth 0%N ix 0 in
       chain_trace ns nc
         (pl_dot Gamma gamma5) (sc_conj (prop_at prop1 x))
         (pl_dot gamma5 Gamma) (sc_transpose (prop_at prop2 x))).

(** The phase [exp(i * site . momentum * 2 pi / extent)] of the spatial
    site number [s]. *)
Definition momentum_phase (X Y Z : nat) (momentum : C * C * C) (s : nat) : C :=
  let site := nth [::] (lattice_sites X Y Z) s in
  let p := [:: momentum.1.1; momentum.1.2; momentum.2] in
  let extent := [:: X; Y; Z] in
  cexp ('i * \sum_(c < 3) (nth 0%N site c)%:R * nth 0 p c
                          * (2%:R * pi / (nth 0%N extent c)%:R)).

(** The momentum projection at the time-slice [t] of a position-space
    correlator [cc] laid out as [T] rows of [V] spatial sites: the real
    part of the sum over the sites of the time-slice. *)
Definition projected (cc : ndarray C) (V : nat) (phase : nat -> C) (t : nat)
    : C :=
  'Re (\sum_(s < V) item cc [:: (t * V + s)%N] * phase s).

(** The propagator a file yields for a key (the empty array if the load
    fails). *)
Definition loaded (f : prop_file) (k : key) : ndarray C :=
  if load_propagator f k is Ok p then p else nd_zeros C [::].

(** The load of a key succeeds with a propagator of the given shape. *)
Definition loads_with_shape (f : prop_file) (sh : seq nat) (k : key) : bool :=
  if load_propagator f k is Ok p then shape p == sh else false.

End SpecCorrelators.

(** ** Concrete inputs

    Small inputs on which the statements below are exercised: rational
    series, and all-zero tensors over the algebraic numbers on a lattice
    of [T = 4] time-slices and [2 x 2 x 2] spatial sites. *)

Module Sample.

Local Open Scope ring_scope.

Definition series : seq rat := [:: 1; 2; 3; 4].

Definition loops : seq (seq rat) := [:: [:: 1; 2]; [:: 3; 4]].

Definition gamma : ndarray algC := nd_zeros algC [:: 4; 4]%N.

Definition propagator (sites : nat) : ndarray algC :=
  nd_zeros algC [:: sites; 4; 4; 3; 3]%N.

(** A propagator file with the single key [0]. *)
Definition keys (f : unit) : seq nat := [:: 0%N].

Definition load (f : unit) (k : nat) : result (ndarray algC) :=
  Ok (propagator 32).

Definition Gammas : seq (seq (ndarray algC)) := [:: nseq 16 gamma].

End Sample.


(** ** The rest of the two modules

    [bootstrap] of [statistics.py], with numpy's random generator as an
    explicit state, and the body of the loop of [meson_spec] over the
    propagator pairs as a function of its own. *)

Section Bootstrap.

Variable R : realFieldType.
Local Open Scope ring_scope.

(** The state of the random generator, and [pl.randint(low, high, size)]:
    the drawn integers (or numpy's exception) and the new state. *)
Variable rng : Type.
Variable randint : rng -> Z -> Z -> Z -> result (seq Z) * rng.

(** [X[i]] for an integer [i]: a negative index counts from the end, and
    an index outside [-n, n) is an [IndexError]. *)
Definition index_item (X : seq R) (i : Z) : result R :=
  let n := Z.of_nat (size X) in
  if (i <? - n)%pz || (n <=? i)%pz then Raise IndexError
  else Ok (nth 0 X (Z.to_nat (if (i <? 0)%pz then (i + n)%pz else i))).

(** [X[idx]] for an array of integers. *)
Fixpoint index_items (X : seq R) (idx : seq Z) : result (seq R) :=
  match idx with
  | [::] => Ok [::]
  | i :: rest =>
      let! x := index_item X i in
      let! xs := index_items X rest in
      Ok (x :: xs)
  end.

(** An integer of [0 .. n - 1]. *)
Definition in_range (n : Z) (i : Z) : bool := (0 <=? i)%pz && (i <? n)%pz.

Definition bootstrap (X : seq R) (g : rng) : result (seq R) * rng :=
  let n := pl_size X in
  let: (drawn, g') := randint g 0%pz n n in
  (let! idx := drawn in index_items X idx, g').

End Bootstrap.

Section MesonLoopBody.

Variable C : numClosedFieldType.
Local Open Scope ring_scope.

Variable cexp : C -> C.
Variable gamma5 : ndarray C.
Variable Gammas_values : seq (seq (ndarray C)).
Variables (prop_file key : Type).
Variable load_propagator : prop_file -> key -> result (ndarray C).

(** The body of [for i, key in enumerate(prop_file1.keys())] in
    [meson_spec], on the values the function has computed before the
    loop. *)
Definition meson_pair_step (prop_file1 prop_file2 : prop_file) (T : nat)
    (sites : seq (seq nat)) (momentum momentum_prefactors : seq C)
    (ik : nat * key) (st : ndarray C * seq string) :
    result (ndarray C * seq string) :=
  let: (i, k) := ik in
  let out := rcons st.2 (pair_message i) in
  let! prop1 := load_propagator prop_file1 k in
  let! prop2 := load_propagator prop_file2 k in
  let! correlators := set_column st.1 i 0 (nd_arange C T) in
  let! correlators :=
    for_each
      (gamma_step cexp gamma5 prop1 prop2 T sites momentum
                  momentum_prefactors i)
      (enumerate (flatten Gammas_values)) correlators in
  Ok (correlators, rcons out "Done!"%string).

End MesonLoopBody.

(** More inputs: a namespace that binds [Ws], and a generator of random
    integers that always draws the lower bound. *)

Module Inputs.

Definition globals_with_Ws : namespace rat :=
  ("Ws"%string, PyArray Sample.series) :: statistics_globals rat.

Definition randint_low (g : unit) (low high size : Z) :
    result (seq Z) * unit :=
  (Ok (nseq (Z.to_nat size) low), g).

(** A propagator file without keys, a loader that finds no key, a
    dictionary of 17 Gamma matrices, and a function with the value of the
    exponential at [0]. *)
Definition no_keys (f : unit) : seq nat := [::].

Definition load_fails (f : unit) (k : nat) : result (ndarray algC) :=
  Raise KeyError.

Definition Gammas17 : seq (seq (ndarray algC)) :=
  [:: nseq 17 Sample.gamma].

Definition one_plus (z : algC) : algC := (1 + z)%R.

(** The spin matrices of two components: the identity and the matrix
    units; and a propagator on one site with one colour whose spin block is
    a matrix unit. *)
Definition identity2 : ndarray algC :=
  NdArray [:: 2; 2]%N
    (fun ix => if nth 0%N ix 0 == nth 0%N ix 1 then 1%R else 0%R).

Definition unit2 (r c : nat) : ndarray algC :=
  NdArray [:: 2; 2]%N
    (fun ix => if (nth 0%N ix 0 == r) && (nth 0%N ix 1 == c)
               then 1%R else 0%R).

Definition unit_propagator (r c : nat) : ndarray algC :=
  NdArray [:: 1; 2; 2; 1; 1]%N
    (fun ix => if (nth 0%N ix 1 == r) && (nth 0%N ix 2 == c)
               then 1%R else 0%R).

(** A propagator on 32 sites that is 1 at one site and 0 elsewhere. *)
Definition propagator_at (site : nat) : ndarray algC :=
  NdArray [:: 32; 4; 4; 3; 3]%N
    (fun ix => if nth 0%N ix 0 == site then 1%R else 0%R).

End Inputs.

(** * Properties *)

(** ** Loops and integer conversions *)

Section LoopFacts.

Variables (T : Type) (x0 : T).

(** A loop that stores [g i] at each index [i] of a range inside the array
    never raises and changes exactly those entries. *)
Lemma for_each_setitem_range (g : nat -> T) (k m : nat) (a : seq T) :
  (m + k <= size a)%N ->
  for_each (fun i a => setitem x0 a i (g i)) (iota m k) a
  = Ok (mkseq (fun i => if (m <= i < m + k)%N then g i else nth x0 a i)
              (size a)).
Proof.
elim: k m a => [|k IH] m a /=.
  move=> _; congr Ok; rewrite -[LHS](mkseq_nth x0); apply: eq_mkseq => i.
  by rewrite addn0 ltnNge andbN.
rewrite addnS => lt_mk_a.
have lt_m_a : (m < size a)%N by apply: leq_ltn_trans lt_mk_a; apply: leq_addr.
rewrite /setitem lt_m_a /= IH;
  first by rewrite size_set_nth (maxn_idPr lt_m_a) addSn.
rewrite size_set_nth (maxn_idPr lt_m_a); congr Ok; apply: eq_mkseq => i.
rewrite nth_set_nth /= addSn ltnS.
by case: (ltngtP m i) => [lt_mi|lt_im|->]; rewrite ?leqnn ?leq_addr.
Qed.

Lemma for_each_setitem_fill (g : nat -> T) (a : seq T) :
  for_each (fun i a => setitem x0 a i (g i)) (iota 0 (size a)) a
  = Ok (mkseq g (size a)).
Proof.
rewrite for_each_setitem_range ?add0n //; congr Ok.
by apply/eq_in_map => i; rewrite mem_iota add0n => ->.
Qed.

End LoopFacts.

Lemma to_nat_half (n : nat) : Z.to_nat (Z.of_nat n / 2) = n./2.
Proof.
have := odd_double_half n; rewrite -mul2n -plusE -multE => def_n.
have -> : (Z.of_nat n / 2)%pz = Z.of_nat n./2; last by rewrite Nat2Z.id.
symmetry; apply: (Z.div_unique _ _ _ (Z.of_nat (odd n))).
  by case: (odd n) => /=; lia.
by rewrite -[in LHS]def_n; lia.
Qed.

Lemma xrange_of_nat (n : nat) : xrange (Z.of_nat n) = iota 0 n.
Proof. by rewrite /xrange Nat2Z.id. Qed.

(** ** Cyclic shifts *)

Section RollFacts.

Variable T : Type.

(** Rolling by [-t] brings the entry at [t] to the front: it is the left
    rotation by [t]. *)
Lemma pl_roll_neg (a : seq T) (t : nat) :
  (t < size a)%N -> pl_roll a (- Z.of_nat t) = rot t a.
Proof.
rewrite /pl_roll; case def_n: (size a) => [|n] // lt_t.
case: t lt_t => [|t] lt_t.
  by rewrite (_ : (_ mod _)%pz = 0%pz) //= subn0 -def_n drop_size take_size rot0.
have -> : (- Z.of_nat t.+1 mod Z.of_nat n.+1)%pz = Z.of_nat (n.+1 - t.+1).
  symmetry; apply: (Z.mod_unique _ _ (-1)%pz).
    by left; move/ltP: lt_t; rewrite -minusE; lia.
  by move/ltP: lt_t; rewrite -minusE; lia.
by rewrite Nat2Z.id subKn // ltnW.
Qed.

(** The entry of a right rotation, with the index reduced as Python's [%]
    does it. *)
Lemma nth_rotr (x0 : T) (a : seq T) (t i : nat) :
  (t <= size a)%N -> (i < size a)%N ->
  nth x0 (rotr t a) i
  = nth x0 a (Z.to_nat ((Z.of_nat i - Z.of_nat t) mod Z.of_nat (size a))).
Proof.
move=> le_t lt_i; rewrite /rotr /rot nth_cat size_drop subKn //.
case: ltnP => [lt_it|le_ti].
  rewrite nth_drop; congr nth.
  rewrite (_ : (_ mod _)%pz = Z.of_nat (size a - t + i)) ?Nat2Z.id //.
  symmetry; apply: (Z.mod_unique _ _ (-1)%pz).
    left; move/leP: le_t; move/ltP: lt_it; move/ltP: lt_i.
    by rewrite -plusE -minusE; lia.
  by move/leP: le_t; move/ltP: lt_it; rewrite -plusE -minusE; lia.
rewrite nth_take; first by rewrite ltn_sub2r // (leq_ltn_trans le_ti).
congr nth; rewrite Z.mod_small.
  by move/leP: le_ti; move/ltP: lt_i; lia.
by move/leP: le_ti; rewrite -minusE; lia.
Qed.

Lemma drop_zip (U : Type) (n : nat) (s : seq T) (u : seq U) :
  drop n (zip s u) = zip (drop n s) (drop n u).
Proof.
elim: n s u => [|n IH] [|x s] [|y u] //=; first by case: (drop n u).
by case: (drop n s).
Qed.

Lemma take_zip (U : Type) (n : nat) (s : seq T) (u : seq U) :
  take n (zip s u) = zip (take n s) (take n u).
Proof.
by elim: n s u => [|n IH] [|x s] [|y u] //=; rewrite IH.
Qed.

Lemma rot_zip (U : Type) (n : nat) (s : seq T) (u : seq U) :
  size s = size u -> rot n (zip s u) = zip (rot n s) (rot n u).
Proof.
by move=> eq_su; rewrite /rot zip_cat ?size_drop ?eq_su // drop_zip take_zip.
Qed.

Lemma zip_swap (U : Type) (s : seq T) (u : seq U) :
  zip u s = [seq (p.2, p.1) | p <- zip s u].
Proof. by elim: s u => [|x s IH] [|y u] //=; rewrite IH. Qed.

End RollFacts.

(** ** Autocorrelation *)

Section AutoCorrelationFacts.

Variable R : realFieldType.
Local Open Scope ring_scope.

Lemma pl_zeros_of_nat (n : nat) : pl_zeros R (Z.of_nat n) = Ok (nseq n 0).
Proof.
rewrite /pl_zeros Nat2Z.id; case: Z.ltb_spec => // lt0; lia.
Qed.

Lemma cyclic_index_lt (N i t : nat) : (0 < N)%N -> (cyclic_index N i t < N)%N.
Proof.
move=> /ltP N_gt0; apply/ltP; rewrite /cyclic_index.
have := Z.mod_pos_bound (Z.of_nat i - Z.of_nat t) (Z.of_nat N); lia.
Qed.

Lemma cyclic_index0 (N i : nat) : (i < N)%N -> cyclic_index N i 0 = i.
Proof.
move=> /ltP lt_i; rewrite /cyclic_index Z.mod_small; lia.
Qed.

Lemma zip_nth (A B : Type) (a0 : A) (b0 : B) (s : seq A) (u : seq B) :
  size s = size u ->
  zip s u = [seq (nth a0 s i, nth b0 u i) | i <- iota 0 (size s)].
Proof.
move=> eq_su; apply: (@eq_from_nth _ (a0, b0)).
  by rewrite size_zip size_map size_iota -eq_su minnn.
move=> i; rewrite size_zip -eq_su minnn => lt_i.
by rewrite nth_zip // (nth_map 0%N) ?size_iota // nth_iota.
Qed.

(** The sum of lagged products does not depend on the direction of the
    lag: rotating both factors is a permutation of the summands. *)
Lemma sum_lagged_products (A : seq R) (t : nat) :
  \sum_(p <- zip A (rot t A)) p.1 * p.2
  = \sum_(p <- zip A (rotr t A)) p.1 * p.2.
Proof.
rewrite (zip_swap (rot t A) A) big_map /=.
rewrite -{2}(rotrK t A) -rot_zip ?size_rotr //.
have perm_t : perm_eq (rot t (zip A (rotr t A))) (zip A (rotr t A)).
  by rewrite perm_rot.
rewrite (perm_big _ perm_t) /=.
by apply: eq_bigr => p _; rewrite mulrC.
Qed.

Lemma lagged_mean_rot (S : seq R) (t : nat) :
  (t <= size S)%N ->
  pl_mean (mul_arrays (sub_scalar S (pl_mean S))
                      (sub_scalar (rot t S) (pl_mean S)))
  = lagged_product_mean S t.
Proof.
move=> le_t; rewrite /lagged_product_mean /mul_arrays /sub_scalar /=.
set mu := pl_mean S; set A := [seq x - mu | x <- S].
have sizeA : size A = size S by rewrite size_map.
rewrite map_rot -/A /pl_mean !size_map size_zip size_rot minnn size_iota sizeA.
congr (_ / _); rewrite !big_map sum_lagged_products.
rewrite (zip_nth 0 0) ?size_rotr // big_map sizeA.
apply: eq_big_seq => i; rewrite mem_iota add0n /= => lt_i.
rewrite nth_rotr ?sizeA // -/(cyclic_index (size S) i t).
rewrite !(nth_map 0) // cyclic_index_lt //; exact: leq_ltn_trans lt_i.
Qed.

Lemma lagged_product_mean0 (S : seq R) : lagged_product_mean S 0 = variance S.
Proof.
rewrite /lagged_product_mean /variance /=; congr pl_mean.
set mu := pl_mean S.
rewrite -[X in _ = map _ X](mkseq_nth 0 S) -map_comp; apply/eq_in_map => i.
by rewrite mem_iota add0n /= => lt_i; rewrite cyclic_index0 // expr2.
Qed.

Lemma auto_correlation_eq (S : seq R) :
  auto_correlation S
  = Ok (mkseq (fun t =>
                 pl_mean (mul_arrays
                            (sub_scalar S (pl_mean S))
                            (sub_scalar (pl_roll S (- Z.of_nat t))
                                        (pl_mean S))))
              (size S)./2).
Proof.
rewrite /auto_correlation /pl_size.
have -> : (Z.of_nat (size S) / 2)%pz = Z.of_nat (size S)./2.
  by rewrite -to_nat_half Z2Nat.id //; apply: Z.div_pos; lia.
rewrite pl_zeros_of_nat /= xrange_of_nat.
by rewrite -{1}(size_nseq (size S)./2 (0 : R)) for_each_setitem_fill size_nseq.
Qed.

End AutoCorrelationFacts.

(** ** Loops with an invariant *)

Section LoopInvariant.

Variable S : Type.

Lemma for_each_iota_inv (P : nat -> S -> Prop) (body : nat -> S -> result S)
    (n : nat) (st : S) :
  P 0%N st ->
  (forall k st, (k < n)%N -> P k st ->
     exists2 st', body k st = Ok st' & P k.+1 st') ->
  exists2 st', for_each body (iota 0 n) st = Ok st' & P n st'.
Proof.
move=> P0 step.
have gen j : forall m st, (m + j = n)%N -> P m st ->
    exists2 st', for_each body (iota m j) st = Ok st' & P n st'.
  elim: j => [|j IH] m st0 /=.
    by rewrite addn0 => <- Pm; exists st0.
  rewrite addnS => def_n Pm.
  have lt_m : (m < n)%N by rewrite -def_n ltnS leq_addr.
  have [st1 -> P1] := step m st0 lt_m Pm.
  by apply: IH P1; rewrite addSn.
exact: gen.
Qed.

End LoopInvariant.

(** ** The fits *)

Section FitFacts.

Variable R : realFieldType.
Local Open Scope ring_scope.

Variables (exp sqrt : R -> R).
Variable leastsq : residual_fn R -> seq R -> seq R * seq R -> seq R * Z.

Lemma list_count_success (ier : Z) :
  (list_count [:: 1; 2; 3; 4]%pz ier < 1)%N = ~~ solver_success ier.
Proof.
rewrite /list_count /solver_success; cbn [count]; rewrite !(Z.eqb_sym _ ier).
by case: (ier =? 1)%pz; case: (ier =? 2)%pz; case: (ier =? 3)%pz;
   case: (ier =? 4)%pz.
Qed.

Lemma potential_params_curve_eq (data : seq R) (out : seq string) :
  potential_params_curve leastsq data out
  = ((fit_potential leastsq data).1,
     if solver_success (fit_potential leastsq data).2 then out
     else rcons out fit_warning).
Proof.
rewrite /potential_params_curve /fit_potential.
case: (leastsq _ _ _) => b ier /=.
by rewrite list_count_success; case: (solver_success ier).
Qed.

Lemma for_each_ext (I S : Type) (f g : I -> S -> result S) (items : seq I)
    (st : S) :
  (forall i st, f i st = g i st) -> for_each f items st = for_each g items st.
Proof.
by move=> eq_fg; elim: items st => [|i items IH] st //=; rewrite eq_fg;
   case: (g i st) => //=.
Qed.

Lemma map_nth_range (A B : Type) (a0 : A) (F : A -> B) (s : seq A) :
  mkseq (fun i => F (nth a0 s i)) (size s) = [seq F x | x <- s].
Proof. by rewrite -[in RHS](mkseq_nth a0 s) -map_comp. Qed.

Lemma calculate_potential_loops_eq (W : seq (seq R)) :
  calculate_potential_loops exp leastsq W = Ok (fit_decay exp leastsq W).
Proof.
rewrite /calculate_potential_loops /fit_decay xrange_of_nat.
set t := pl_arange R 1 _.
rewrite (for_each_ext (g := fun i a =>
           setitem 0 a i
             (nth 0 (leastsq (decay_residual exp) [:: 1; 1]
                             (t, nth [::] W i)).1 1)));
  first by move=> i a; case: (leastsq _ _ _).
rewrite -{1}(size_nseq (size W) (0 : R)) for_each_setitem_fill size_nseq.
by rewrite (map_nth_range [::]
              (fun row => nth 0 (leastsq _ _ (t, row)).1 1)).
Qed.

Lemma calculate_potential_single (W : seq (seq R)) :
  calculate_potential exp leastsq (Single W)
  = Ok (Single (fit_decay exp leastsq W)).
Proof. by rewrite /= calculate_potential_loops_eq. Qed.

Lemma calculate_potential_batch (Ws : seq (seq (seq R))) :
  calculate_potential exp leastsq (Batch Ws)
  = Ok (Batch [seq fit_decay exp leastsq W | W <- Ws]).
Proof.
rewrite /= xrange_of_nat.
rewrite (for_each_ext (g := fun i a =>
           setitem [::] a i (fit_decay exp leastsq (nth [::] Ws i))));
  first by move=> i a; rewrite calculate_potential_loops_eq.
set z := nseq (size Ws) _.
have size_z : size z = size Ws by rewrite size_nseq.
by rewrite -{1}size_z for_each_setitem_fill size_z /= map_nth_range.
Qed.

Lemma potential_params_single (data : seq R) (out : seq string) :
  potential_params leastsq (Single data) out
  = Ok (Single (fit_potential leastsq data).1,
        if solver_success (fit_potential leastsq data).2 then out
        else rcons out fit_warning).
Proof. by rewrite /= potential_params_curve_eq. Qed.

Lemma potential_params_batch (curves : seq (seq R)) (out : seq string) :
  potential_params leastsq (Batch curves) out
  = Ok (Batch [seq (fit_potential leastsq c).1 | c <- curves],
        fit_warnings leastsq curves out).
Proof.
rewrite /= xrange_of_nat; set n := size curves; set body := fun i st => _.
pose rows k := mkseq (fun i => if (i < k)%N
                      then (fit_potential leastsq (nth [::] curves i)).1
                      else nseq 3 (0 : R)) n.
pose P k (st : seq (seq R) * seq string) :=
  st = (rows k, fit_warnings leastsq (take k curves) out).
have [] := @for_each_iota_inv _ P body n (nseq n (nseq 3 0), out).
- rewrite /P take0 /=; congr (_, _); apply: (@eq_from_nth _ [::]).
    by rewrite size_nseq size_mkseq.
  by move=> i; rewrite size_nseq => lt_i; rewrite nth_nseq lt_i nth_mkseq.
- move=> k st lt_k ->; rewrite /body /= potential_params_curve_eq.
  rewrite /setitem size_mkseq lt_k /=; eexists; first by [].
  rewrite /P (take_nth [::]) // /fit_warnings foldl_rcons; congr (_, _).
  apply: (@eq_from_nth _ [::]).
    by rewrite size_set_nth !size_mkseq; apply/maxn_idPr.
  move=> i; rewrite size_set_nth size_mkseq (maxn_idPr lt_k) => lt_i.
  rewrite nth_set_nth /= !nth_mkseq // ltnS.
  by case: (ltngtP i k) => [lt_ik|lt_ki|->].
move=> st -> ->; rewrite /fit_warnings take_size; congr (Ok (Batch _, _)).
rewrite -(map_nth_range [::] (fun c => (fit_potential leastsq c).1)).
by apply/eq_in_map => i; rewrite mem_iota add0n /= => ->.
Qed.

End FitFacts.

(** ** The correlator: staged contraction against the one-step contraction *)

Section CorrelatorFacts.

Variable C : numClosedFieldType.
Local Open Scope ring_scope.

Variable gamma5 : ndarray C.

(** Well-shaped operands: [ns] spin components, [nc] colours, [n] lattice
    sites on the leading axis of the propagators. *)
Variables (ns nc n : nat).
Variables (prop1 prop2 Gamma : ndarray C).
Hypothesis shape_gamma5 : shape gamma5 = [:: ns; ns].
Hypothesis shape_Gamma : shape Gamma = [:: ns; ns].
Hypothesis shape_prop1 : shape prop1 = [:: n; ns; ns; nc; nc].
Hypothesis shape_prop2 : shape prop2 = [:: n; ns; ns; nc; nc].

Lemma shape_compute_correlator :
  shape (compute_correlator gamma5 prop1 prop2 Gamma) = [:: n].
Proof.
by rewrite /= shape_Gamma shape_gamma5 shape_prop1.
Qed.

(** The entry of the staged computation, written with the two intermediate
    products. *)
Lemma item_compute_correlator (ix : seq nat) :
  item (compute_correlator gamma5 prop1 prop2 Gamma) ix
  = 'Re (\sum_(i < ns) \sum_(l < ns) \sum_(a < nc) \sum_(b < nc)
           (\sum_(j < ns) item (pl_dot Gamma gamma5) [:: val i; val j]
               * (item prop1 [:: nth 0%N ix 0; val j; val l; val a; val b])^*)
           * (\sum_(m < ns) item (pl_dot gamma5 Gamma) [:: val l; val m]
               * item prop2 [:: nth 0%N ix 0; val i; val m; val a; val b])).
Proof.
by rewrite /= shape_Gamma shape_gamma5 shape_prop1.
Qed.

Lemma staged_is_one_step (ix : seq nat) :
  item (compute_correlator gamma5 prop1 prop2 Gamma) ix
  = item (one_step_correlator gamma5 prop1 prop2 Gamma) ix.
Proof.
rewrite item_compute_correlator /one_step_correlator /= shape_prop1 /=.
congr ('Re _); apply: eq_bigr => i _.
under eq_bigr => l _ do under eq_bigr => a _ do under eq_bigr => b _ do
  rewrite big_distrlr /=.
under eq_bigr => l _ do under eq_bigr => a _ do rewrite exchange_big /=.
under eq_bigr => l _ do rewrite exchange_big /=.
rewrite exchange_big /=.
do 5![apply: eq_bigr => ? _].
by rewrite !mulrA.
Qed.

(** The staged computation as a chain of matrix products: the transpose
    falls on the second propagator. *)
Lemma staged_is_transposed_chain (ix : seq nat) :
  item (compute_correlator gamma5 prop1 prop2 Gamma) ix
  = item (transposed_contraction gamma5 prop1 prop2 Gamma) ix.
Proof.
rewrite item_compute_correlator /transposed_contraction shape_prop1.
rewrite [item (NdArray _ _) _]/= /chain_trace /sc_trace /spin_mul /sc_mul
        /sc_conj /sc_transpose /prop_at.
move: (pl_dot Gamma gamma5) (pl_dot gamma5 Gamma) => G2 G3.
congr ('Re _); apply: eq_bigr => i _.
rewrite exchange_big /=.
apply: eq_bigr => a _.
under [RHS]eq_bigr => k _ do
  (rewrite big_distrr /=; under eq_bigr => l _ do rewrite big_distrr /=).
rewrite [RHS]exchange_big /=; apply: eq_bigr => l _.
rewrite [RHS]exchange_big /=; apply: eq_bigr => b _.
by rewrite big_distrl /=; apply: eq_bigr => j _; rewrite mulrA.
Qed.

End CorrelatorFacts.

(** ** Loops over [enumerate] *)

Section EnumerateLoop.

Variables (A S : Type).

Lemma for_each_enumerate_inv (P : nat -> S -> Prop)
    (body : nat * A -> S -> result S) (s : seq A) (st : S) :
  P 0%N st ->
  (forall k x st, (k < size s)%N -> (forall x0, nth x0 s k = x) -> P k st ->
     exists2 st', body (k, x) st = Ok st' & P k.+1 st') ->
  exists2 st', for_each body (enumerate s) st = Ok st' & P (size s) st'.
Proof.
move=> P0 step; rewrite /enumerate.
have gen s2 : forall s1 st, s = s1 ++ s2 -> P (size s1) st ->
    exists2 st', for_each body (zip (iota (size s1) (size s2)) s2) st = Ok st'
                 & P (size s) st'.
  elim: s2 => [|x s2 IH] s1 st0 def_s P1 /=.
    by exists st0 => //; rewrite def_s cats0.
  have lt_k : (size s1 < size s)%N.
    by rewrite def_s size_cat /= addnS ltnS leq_addr.
  have nth_k x0 : nth x0 s (size s1) = x.
    by rewrite def_s nth_cat ltnn subnn.
  have [st1 -> P2] := step _ x st0 lt_k nth_k P1.
  have := IH (rcons s1 x) st1; rewrite size_rcons cat_rcons.
  exact.
exact: (gen s [::]).
Qed.

End EnumerateLoop.

(** ** The meson spectrum *)

Section MesonFacts.

Variable C : numClosedFieldType.
Local Open Scope ring_scope.

Variable cexp : C -> C.
Variable pi : C.
Variable gamma5 : ndarray C.
Variable Gammas_values : seq (seq (ndarray C)).
Variables (prop_file key : Type).
Variable keys : prop_file -> seq key.
Variable load_propagator : prop_file -> key -> result (ndarray C).

Lemma size_lattice_sites (X Y Z : nat) :
  size (lattice_sites X Y Z) = (X * Y * Z)%N.
Proof.
rewrite /lattice_sites -mulnA; move: (iota 0 X) (size_iota 0 X) => s <-.
elim: s => [|x s IH] //=.
by rewrite size_cat IH size_allpairs !size_iota mulSn.
Qed.

Lemma momentum_prefactor_pos (N : nat) :
  (0 < N)%N -> momentum_prefactor pi N = Ok (2%:R * pi / N%:R).
Proof. by case: N. Qed.

Variables (ns nc : nat).
Variables (T X Y Z : nat) (momentum : C * C * C).

Let V : nat := (X * Y * Z)%N.
Let sites : seq (seq nat) := lattice_sites X Y Z.
Let prefactors : seq C :=
  [:: 2%:R * pi / X%:R; 2%:R * pi / Y%:R; 2%:R * pi / Z%:R].
Let phase : nat -> C := momentum_phase cexp pi X Y Z momentum.
Let p3 : seq C := [:: momentum.1.1; momentum.1.2; momentum.2].

Hypothesis shape_gamma5 : shape gamma5 = [:: ns; ns].

Lemma item_exponentials (ix : seq nat) :
  item (exponentials cexp sites p3 prefactors) ix = phase (nth 0%N ix 0).
Proof.
rewrite /phase /momentum_phase /=; congr (cexp (_ * _)).
apply: eq_bigr => c _; congr (_ * _).
by case: c => [[|[|[|c]]] lt_c].
Qed.

(** One pass of the loop over the Gamma matrices fills one column of the
    pair's block and leaves every other entry as it was. *)
Lemma gamma_step_ok (prop1 prop2 G c : ndarray C) (np i j : nat) :
  shape prop1 = [:: (T * V)%N; ns; ns; nc; nc] ->
  shape prop2 = [:: (T * V)%N; ns; ns; nc; nc] ->
  shape G = [:: ns; ns] ->
  shape c = [:: np; T; 17] -> (i < np)%N -> (j < 16)%N ->
  exists2 c',
    gamma_step cexp gamma5 prop1 prop2 T sites p3 prefactors i (j, G) c
    = Ok c'
    & shape c' = [:: np; T; 17] /\
      forall ix, item c' ix
        = if (nth 0%N ix 0 == i) && (nth 0%N ix 2 == j.+1)
          then projected (compute_correlator gamma5 prop1 prop2 G) V phase
                         (nth 0%N ix 1)
          else item c ix.
Proof.
move=> sh1 sh2 shG shc lt_i lt_j; rewrite /gamma_step.
have := @shape_compute_correlator _ _ ns nc _ _ prop2 _ shape_gamma5 shG sh1.
have := item_exponentials.
move: (compute_correlator _ _ _ _) (exponentials _ _ _ _) => cc e item_e sh_cc.
rewrite /pl_reshape2 sh_cc size_lattice_sites eqxx /= /set_column /= shc /=.
rewrite lt_i eqxx ltnS (leq_trans lt_j) //=.
eexists; first by [].
split=> // ix /=; case: ifP => // _.
rewrite /projected; congr ('Re _); apply: eq_bigr => s _.
by rewrite item_e.
Qed.

Let Gammas : seq (ndarray C) := flatten Gammas_values.
Let G0 : ndarray C := nd_zeros C [::].

Hypothesis shape_Gammas : all (fun G => shape G == [:: ns; ns]) Gammas.
Hypothesis size_Gammas : size Gammas = 16%N.

(** The loop over the Gamma matrices fills the columns 1 to 16 of the
    pair's block. *)
Lemma gamma_loop_ok (prop1 prop2 c0 : ndarray C) (np i : nat) :
  shape prop1 = [:: (T * V)%N; ns; ns; nc; nc] ->
  shape prop2 = [:: (T * V)%N; ns; ns; nc; nc] ->
  shape c0 = [:: np; T; 17] -> (i < np)%N ->
  exists2 c',
    for_each (gamma_step cexp gamma5 prop1 prop2 T sites p3 prefactors i)
             (enumerate Gammas) c0 = Ok c'
    & shape c' = [:: np; T; 17] /\
      forall ix, item c' ix
        = if (nth 0%N ix 0 == i) && (0 < nth 0%N ix 2 <= 16)%N
          then projected
                 (compute_correlator gamma5 prop1 prop2
                    (nth G0 Gammas (nth 0%N ix 2).-1))
                 V phase (nth 0%N ix 1)
          else item c0 ix.
Proof.
move=> sh1 sh2 sh0 lt_i.
pose P j (c : ndarray C) :=
  shape c = [:: np; T; 17] /\
  forall ix, item c ix
    = if (nth 0%N ix 0 == i) && (0 < nth 0%N ix 2 <= j)%N
      then projected
             (compute_correlator gamma5 prop1 prop2
                (nth G0 Gammas (nth 0%N ix 2).-1))
             V phase (nth 0%N ix 1)
      else item c0 ix.
have [] := @for_each_enumerate_inv _ _ P
             (gamma_step cexp gamma5 prop1 prop2 T sites p3 prefactors i)
             Gammas c0.
- by split=> // ix; rewrite leqn0; case: (nth 0%N ix 2) => [|m]; rewrite andbF.
- move=> j G c lt_j nth_j [shc item_c].
  have shG : shape G = [:: ns; ns].
    by rewrite -(nth_j G0); apply/eqP/(all_nthP G0 shape_Gammas).
  rewrite size_Gammas in lt_j.
  have [c' -> [shc' item_c']] := gamma_step_ok sh1 sh2 shG shc lt_i lt_j.
  exists c' => //; split=> // ix; rewrite item_c' item_c.
  case: (nth 0%N ix 0 == i) => //=.
  case: (nth 0%N ix 2) => [|m] //=; rewrite eqSS ltnS.
  by case: (ltngtP m j) => // ->; rewrite nth_j.
by move=> c' -> []; rewrite size_Gammas => shc' item_c'; exists c'.
Qed.

Variables (f1 f2 : prop_file) (k0 : key).

Let np : nat := size (keys f1).
Let psh : seq nat := [:: (T * V)%N; ns; ns; nc; nc].

Hypothesis loads :
  all (fun k => loads_with_shape load_propagator f1 psh k
                && loads_with_shape load_propagator f2 psh k) (keys f1).
Hypothesis X_gt0 : (0 < X)%N.
Hypothesis Y_gt0 : (0 < Y)%N.
Hypothesis Z_gt0 : (0 < Z)%N.

(** The entry the finished array holds at a multi-index of a pair. *)
Let entry (ix : seq nat) : C :=
  let k := nth k0 (keys f1) (nth 0%N ix 0) in
  if nth 0%N ix 2 == 0%N then (nth 0%N ix 1)%:R
  else projected
         (compute_correlator gamma5 (loaded load_propagator f1 k)
            (loaded load_propagator f2 k) (nth G0 Gammas (nth 0%N ix 2).-1))
         V phase (nth 0%N ix 1).

Lemma meson_spec_ok :
  exists (arr : ndarray C) (out : seq string),
    [/\ meson_spec cexp pi gamma5 Gammas_values keys load_propagator
          f1 f2 (T, X, Y, Z) momentum = Ok (arr, out),
        shape arr = [:: np; T; 17]
      & forall ix, (nth 0%N ix 0 < np)%N -> (nth 0%N ix 2 <= 16)%N ->
          item arr ix = entry ix].
Proof.
rewrite /meson_spec !momentum_prefactor_pos //=.
pose P k (st : ndarray C * seq string) :=
  shape st.1 = [:: np; T; 17] /\
  forall ix, (nth 0%N ix 0 < k)%N -> (nth 0%N ix 2 <= 16)%N ->
    item st.1 ix = entry ix.
set body := fun (ik : nat * key) st => _.
have [] := @for_each_enumerate_inv _ _ P body (keys f1)
             (nd_zeros C [:: np; T; 17], [::]).
- by split.
- move=> k x [c out] lt_k nth_k [/= shc item_c].
  have /andP[] := all_nthP k0 loads k lt_k.
  rewrite (nth_k k0) /loads_with_shape.
  case E1: (load_propagator f1 x) => [prop1|] // /eqP sh1.
  case E2: (load_propagator f2 x) => [prop2|] // /eqP sh2.
  rewrite /= /set_column shc /= lt_k eqxx /=.
  set c0 := NdArray _ _.
  have [c' -> [shc' item_c']] :=
    @gamma_loop_ok prop1 prop2 c0 np k sh1 sh2 (erefl _) lt_k.
  eexists; first by [].
  split=> //= ix; rewrite ltnS item_c' /= => le_ix le16.
  rewrite /entry /loaded.
  case: (eqVneq (nth 0%N ix 0) k) => [->|ne_k] /=.
    rewrite (nth_k k0) E1 E2.
    by case: (nth 0%N ix 2) le16 => [|m] //= ->.
  apply: item_c => //.
  by rewrite ltn_neqAle ne_k.
by move=> [arr out] -> [sh_arr item_arr]; exists arr, out.
Qed.

End MesonFacts.

(** * The claims *)

(** ** Binning (C1, C8) *)

Section BinClaims.

Variable R : realFieldType.
Local Open Scope ring_scope.

(** Whatever the series, a bin size other than 1 and 0 makes [bin] stop at
    the unbound name [Ws]. *)
Lemma bin_unbound_Ws (X : seq R) (binsize : Z) :
  binsize <> 1%pz -> binsize <> 0%pz ->
  bin X binsize = Raise (NameError "Ws").
Proof.
move=> /Z.eqb_neq b1 /Z.eqb_neq b0.
by rewrite /bin /bin_in b1 /py_mod b0.
Qed.

Lemma bin_identity (g : namespace R) (X : seq R) : bin_in g X 1%pz = Ok X.
Proof. by []. Qed.

Lemma py_slice_block (X : seq R) (b i : nat) :
  (i.+1 * b <= size X)%N ->
  py_slice X (Z.of_nat i * Z.of_nat b) (Z.of_nat i.+1 * Z.of_nat b)
  = take b (drop (i * b) X).
Proof.
move=> le_X; rewrite /py_slice /slice_bound take_drop -mulSn.
have le_iX : (i * b <= size X)%N.
  by apply: leq_trans le_X; rewrite leq_mul2r leqnSn orbT.
have bound k : (k * b <= size X)%N ->
    Z.to_nat (if (Z.of_nat k * Z.of_nat b <? 0)%pz
              then Z.max 0 (Z.of_nat k * Z.of_nat b + Z.of_nat (size X))
              else Z.min (Z.of_nat k * Z.of_nat b) (Z.of_nat (size X)))
    = (k * b)%N.
  move=> /leP; rewrite -multE => le_k.
  by case: Z.ltb_spec => ?; lia.
by rewrite !bound.
Qed.

(** What the body of [bin] computes once the name [Ws] resolves to the
    series itself: for a bin size [b >= 2] that divides the length, the
    means of the consecutive blocks of [b] entries.  This is the result
    the specification describes; the shipped module never reaches it. *)
Lemma bin_in_block_means (g : namespace R) (X : seq R) (b q : nat) :
  load_global g "Ws" = Ok (PyArray X) ->
  (1 < b)%N -> size X = (q * b)%N ->
  bin_in g X (Z.of_nat b)
  = Ok [seq pl_mean (take b (drop (i * b) X)) | i <- iota 0 q].
Proof.
move=> load_Ws lt_b size_X; rewrite /bin_in load_Ws /py_mod /py_floordiv.
have /ltP b_gt1 := lt_b.
have -> : (Z.of_nat b =? 1)%pz = false by apply/Z.eqb_neq; lia.
have -> : (Z.of_nat b =? 0)%pz = false by apply/Z.eqb_neq; lia.
rewrite /bind /pl_shape /first_dim /pl_size.
have -> : Z.of_nat (size X) = (Z.of_nat q * Z.of_nat b)%pz.
  by rewrite size_X -multE Nat2Z.inj_mul.
rewrite Z.mod_mul; first by lia.
rewrite Z.div_mul; first by lia.
rewrite Z.eqb_refl Z.add_0_r pl_zeros_of_nat size_nseq xrange_of_nat.
rewrite -{1}(size_nseq q (0 : R)) for_each_setitem_fill size_nseq.
congr Ok; apply/eq_in_map => i; rewrite mem_iota add0n => /andP[_ lt_i].
by rewrite py_slice_block // size_X leq_mul2r lt_i orbT.
Qed.

(** C8, as amended.  [bin] has no check of the bin size.  For the bin size
    0 the call fails, for every series and in every module namespace, with
    the [ZeroDivisionError] of [len(X) % binsize]. *)
Theorem bin_zero_binsize (g : namespace R) (X : seq R) :
  bin_in g X 0%pz = Raise ZeroDivisionError.
Proof. by []. Qed.

End BinClaims.

(** C1 (code at the failing input).  On the series [1, 2, 3, 4] with bins
    of two, which the claim sends to the two block means, [bin] raises
    [NameError] for the name [Ws]. *)
Theorem bin_fails_on_blocks_of_two :
  bin Sample.series 2%pz = Raise (NameError "Ws").
Proof. by []. Qed.

(** C8 (counterexample).  With the negative bin size -5 the call on
    [1, 2, 3, 4] does fail, but with the [NameError] of the unbound name
    [Ws], which every bin size other than 1 and 0 meets, and not with an
    error about the argument; and nothing in [bin] rejects the bin size:
    once the name [Ws] is bound (here to the series itself) the same call
    returns a value, the empty series. *)
Lemma bin_negative_binsize_not_rejected :
  bin Sample.series (-5)%pz = Raise (NameError "Ws")
  /\ bin_in (("Ws"%string, PyArray Sample.series) :: statistics_globals rat)
            Sample.series (-5)%pz = Ok [::].
Proof. by []. Qed.

(** ** Autocorrelation (C2, C9) *)

Section AutoCorrelationClaims.

Variable R : realFieldType.
Local Open Scope ring_scope.

(** C2.  For every series [S] of length [N] (non-empty or not),
    [auto_correlation] returns a series of length [floor(N / 2)] whose
    value at each lag [t] is the mean over all [i] of
    [(S[i] - mu) * (S[(i - t) mod N] - mu)]; when there is a lag 0, its
    value is the population variance.  Arithmetic is exact. *)
Theorem auto_correlation_lagged_products (S : seq R) :
  exists r : seq R,
    [/\ auto_correlation S = Ok r,
        size r = (size S)./2,
        forall t, (t < (size S)./2)%N -> nth 0 r t = lagged_product_mean S t
      & (0 < (size S)./2)%N -> nth 0 r 0 = variance S].
Proof.
rewrite auto_correlation_eq; eexists; split; first by [].
- by rewrite size_mkseq.
- move=> t lt_t; rewrite nth_mkseq //.
  have lt_tS : (t < size S)%N.
    by apply: leq_trans lt_t _; rewrite -divn2 leq_div.
  by rewrite pl_roll_neg // lagged_mean_rot // ltnW.
move=> lt0; rewrite nth_mkseq //.
have lt_0S : (0 < size S)%N by case: (size S) lt0.
by rewrite pl_roll_neg // lagged_mean_rot // lagged_product_mean0.
Qed.

(** C9, as amended.  [auto_correlation] has no check of its input and no
    failure mode at all: the empty series yields the empty series, and
    every series yields a result. *)
Theorem auto_correlation_never_raises :
  auto_correlation ([::] : seq R) = Ok [::]
  /\ forall S : seq R, raises (auto_correlation S) = false.
Proof. by split=> [|S]; rewrite auto_correlation_eq. Qed.

End AutoCorrelationClaims.

(** The statement of C2 on the series [1, 2, 3, 4]. *)
Lemma auto_correlation_lagged_products_witness :
  exists r : seq rat,
    [/\ auto_correlation Sample.series = Ok r,
        size r = 2%N,
        forall t, (t < 2)%N ->
          nth 0%R r t = lagged_product_mean Sample.series t
      & (0 < 2)%N -> nth 0%R r 0 = variance Sample.series].
Proof. exact: (auto_correlation_lagged_products Sample.series). Defined.

(** C9 (counterexample).  On the empty series [auto_correlation] returns
    the empty series; it does not fail. *)
Lemma auto_correlation_empty_returns :
  auto_correlation ([::] : seq rat) = Ok [::].
Proof. by []. Qed.

(** ** The fits and the lattice spacing (C6, C7, C10) *)

Section FitClaims.

Variable R : realFieldType.
Local Open Scope ring_scope.

Variables (exp sqrt : R -> R).
Variable leastsq : residual_fn R -> seq R -> seq R * seq R -> seq R * Z.

(** C7.  Given a solver that returns as many parameters as the initial
    guess holds, [potential_params] on a single curve never raises: it
    returns exactly the parameters the solver returned, three of them,
    whatever the status; the warning is printed exactly when the status is
    outside [{1, 2, 3, 4}]. *)
Theorem potential_params_soft_failure (data : seq R) (out : seq string) :
  (forall f x0 args, size (leastsq f x0 args).1 = size x0) ->
  let fit :=
    leastsq (@err_func R) [:: 1; 1; 1] (pl_arange R 1 (size data + 1), data) in
  potential_params leastsq (Single data) out
  = Ok (Single fit.1,
        if solver_success fit.2 then out else rcons out fit_warning)
  /\ size fit.1 = 3%N.
Proof.
by move=> size_fit /=; rewrite potential_params_curve_eq size_fit.
Qed.

(** C10.  On a single Wilson-loop array with [T] time-slices per
    separation the fitter works on the times [1, 2, ..., T]: the residual
    at the 0-based index [k] of a time profile is
    [W[k] - b0 * exp(-b1 * (k + 1))]; and the effective potential of each
    separation is the second parameter [b1] of the fit of its profile from
    the initial guess [(1, 1)]. *)
Theorem calculate_potential_time_axis (W : seq (seq R)) :
  let T := size (head [::] W) in
  let t := pl_arange R 1 (T + 1) in
  [/\ t = [seq k.+1%:R | k <- iota 0 T],
      forall (b row : seq R) (k : nat), size row = T -> (k < T)%N ->
        nth 0 (decay_residual exp b t row) k
        = nth 0 row k - nth 0 b 0 * exp (- nth 0 b 1 * k.+1%:R)
    & calculate_potential exp leastsq (Single W)
      = Ok (Single [seq nth 0 (leastsq (decay_residual exp) [:: 1; 1]
                                       (t, row)).1 1
                   | row <- W])].
Proof.
move=> T t.
have def_t : t = [seq k.+1%:R | k <- iota 0 T].
  by rewrite /t /pl_arange addnK -[1%N]add1n iotaDl -map_comp.
split=> // [b row k size_row lt_k|]; last exact: calculate_potential_single.
rewrite def_t /decay_residual /sub_arrays /getitem.
have size_fit : size [seq nth 0 b 0 * exp (- nth 0 b 1 * x)
                     | x <- [seq k.+1%:R | k <- iota 0 T]] = T.
  by rewrite !size_map size_iota.
rewrite (nth_map (0, 0)) ?size_zip ?size_fit ?size_row ?minnn //.
rewrite nth_zip ?size_fit //= (nth_map 0) ?size_map ?size_iota //.
by rewrite (nth_map 0%N) ?size_iota // nth_iota.
Qed.

(** C6.  [calculate_spacing] is the composition of the exponential-decay
    fit and the pair-potential fit followed by
    [a = 0.5 / sqrt((1.65 + b1) / b0)], with [b0] the first and [b1] the
    second fitted parameter: on a single Wilson-loop array it yields that
    one value, and on a batch it yields the value of each member. *)
Theorem calculate_spacing_sommer :
  (forall (W : seq (seq R)) (out : seq string),
     calculate_spacing exp sqrt leastsq (Single W) out
     = Ok (Single (spacing_of_loops exp sqrt leastsq W),
           if solver_success
                (fit_potential leastsq (fit_decay exp leastsq W)).2
           then out else rcons out fit_warning))
  /\ (forall (Ws : seq (seq (seq R))) (out : seq string),
        calculate_spacing exp sqrt leastsq (Batch Ws) out
        = Ok (Batch [seq spacing_of_loops exp sqrt leastsq W | W <- Ws],
              fit_warnings leastsq [seq fit_decay exp leastsq W | W <- Ws]
                           out)).
Proof.
split=> [W out|Ws out]; rewrite /calculate_spacing.
  by rewrite calculate_potential_single /= potential_params_curve_eq.
rewrite calculate_potential_batch /bind potential_params_batch.
by rewrite /column zip_map -!map_comp.
Qed.

End FitClaims.

(** The statement of C7 on the curve [1, 2, 3, 4] with a solver that
    reports failure: the initial guess comes back and the warning is
    printed. *)
Lemma potential_params_soft_failure_witness :
  (forall f x0 args,
     size (@leastsq_no_progress rat f x0 args).1 = size x0)
  /\ potential_params (@leastsq_no_progress rat) (Single Sample.series) [::]
     = Ok (Single [:: 1; 1; 1]%R, [:: fit_warning]).
Proof.
split; first by [].
exact: (proj1 (@potential_params_soft_failure rat (@leastsq_no_progress rat)
                 Sample.series [::] (fun _ _ _ => erefl))).
Defined.

(** The statement of C10 on two separations with two time-slices each. *)
Lemma calculate_potential_time_axis_witness :
  let t := pl_arange rat 1 (2 + 1) in
  [/\ t = [seq k.+1%:R%R | k <- iota 0 2],
      forall (b row : seq rat) (k : nat), size row = 2%N -> (k < 2)%N ->
        nth 0%R (decay_residual id b t row) k
        = (nth 0 row k - nth 0 b 0 * (- nth 0 b 1 * k.+1%:R))%R
    & calculate_potential id (@leastsq_no_progress rat) (Single Sample.loops)
      = Ok (Single [:: 1; 1]%R)].
Proof.
exact: (@calculate_potential_time_axis rat id (@leastsq_no_progress rat)
          Sample.loops).
Defined.

(** ** The correlator (C3, C4) *)

Section CorrelatorClaims.

Variable C : numClosedFieldType.
Local Open Scope ring_scope.

Variable gamma5 : ndarray C.
Variables (ns nc n : nat).
Variables (prop1 prop2 Gamma : ndarray C).

(** C3, as amended.  On well-shaped operands ([ns] spin components, [nc]
    colours, [n] lattice sites) the staged computation of
    [compute_correlator] equals, site by site, a single contraction: the
    one the source keeps as its reference,
    [einsum('ij,xjlab,lm,ximab->x', Gamma . gamma5, conj(prop1),
    gamma5 . Gamma, prop2).real], the real part of the sum over the spin
    indices [i], [j], [l], [m] and the colour indices [a], [b] of
    [(Gamma . gamma5)[i,j] * conj(prop1[x,j,l,a,b]) * (gamma5 . Gamma)[l,m]
    * prop2[x,i,m,a,b]].  Written as a chain of matrix products this is
    [Re (sum over spin and colour of (Gamma . gamma5) . conj(prop1(x)) .
    (gamma5 . Gamma) . prop2(x)^t)]: the transpose falls on the second
    propagator, in spin and in colour, and not on [Gamma . gamma5]. *)
Theorem compute_correlator_one_step :
  shape gamma5 = [:: ns; ns] -> shape Gamma = [:: ns; ns] ->
  shape prop1 = [:: n; ns; ns; nc; nc] ->
  shape prop2 = [:: n; ns; ns; nc; nc] ->
  [/\ shape (compute_correlator gamma5 prop1 prop2 Gamma)
      = shape (one_step_correlator gamma5 prop1 prop2 Gamma),
      forall x, item (compute_correlator gamma5 prop1 prop2 Gamma) [:: x]
                = item (one_step_correlator gamma5 prop1 prop2 Gamma) [:: x],
      forall x, item (one_step_correlator gamma5 prop1 prop2 Gamma) [:: x]
        = 'Re (\sum_(i < ns) \sum_(j < ns) \sum_(l < ns) \sum_(a < nc)
               \sum_(b < nc) \sum_(m < ns)
                 item (pl_dot Gamma gamma5) [:: val i; val j]
                 * (item prop1 [:: x; val j; val l; val a; val b])^*
                 * item (pl_dot gamma5 Gamma) [:: val l; val m]
                 * item prop2 [:: x; val i; val m; val a; val b]),
      shape (compute_correlator gamma5 prop1 prop2 Gamma)
      = shape (transposed_contraction gamma5 prop1 prop2 Gamma)
    & forall x, item (compute_correlator gamma5 prop1 prop2 Gamma) [:: x]
        = item (transposed_contraction gamma5 prop1 prop2 Gamma) [:: x]].
Proof.
move=> sh5 shG sh1 sh2; split=> [|x|x||x].
- by rewrite (shape_compute_correlator _ sh5 shG sh1) /= sh1.
- exact: (staged_is_one_step _ sh5 shG sh1).
- by rewrite /= sh1.
- by rewrite (shape_compute_correlator _ sh5 shG sh1) /= sh1.
exact: (staged_is_transposed_chain _ sh5 shG sh1).
Qed.

(** C4, as amended.  On well-shaped operands [compute_correlator] returns
    one real value per lattice site, that is per entry of the leading axis
    of the propagators: the real part of the contraction of the two
    propagators at that site.  No sum over the sites of a time-slice is
    taken. *)
Theorem compute_correlator_per_site :
  shape gamma5 = [:: ns; ns] -> shape Gamma = [:: ns; ns] ->
  shape prop1 = [:: n; ns; ns; nc; nc] ->
  shape prop2 = [:: n; ns; ns; nc; nc] ->
  shape (compute_correlator gamma5 prop1 prop2 Gamma) = [:: n]
  /\ forall x,
       item (compute_correlator gamma5 prop1 prop2 Gamma) [:: x]
         \is Num.real
       /\ item (compute_correlator gamma5 prop1 prop2 Gamma) [:: x]
          = 'Re (\sum_(i < ns) \sum_(j < ns) \sum_(l < ns) \sum_(a < nc)
                 \sum_(b < nc) \sum_(m < ns)
                   item (pl_dot Gamma gamma5) [:: val i; val j]
                   * (item prop1 [:: x; val j; val l; val a; val b])^*
                   * item (pl_dot gamma5 Gamma) [:: val l; val m]
                   * item prop2 [:: x; val i; val m; val a; val b]).
Proof.
move=> sh5 shG sh1 sh2; split=> [|x].
  exact: (shape_compute_correlator _ sh5 shG sh1).
rewrite (staged_is_one_step _ sh5 shG sh1) /= sh1 /=.
by split=> //; apply: Creal_Re.
Qed.

End CorrelatorClaims.

(** The statement of C3 on one site with two spin components and one
    colour: [gamma5] the identity, [Gamma] and the second propagator the
    matrix unit [E01], the first propagator [E10]. *)
Lemma compute_correlator_one_step_witness :
  let g5 := Inputs.identity2 in
  let G := Inputs.unit2 0 1 in
  let p1 := Inputs.unit_propagator 1 0 in
  let p2 := Inputs.unit_propagator 0 1 in
  [/\ shape g5 = [:: 2; 2]%N, shape G = [:: 2; 2]%N,
      shape p1 = [:: 1; 2; 2; 1; 1]%N, shape p2 = [:: 1; 2; 2; 1; 1]%N
    & item (compute_correlator g5 p1 p2 G) [:: 0%N]
      = item (transposed_contraction g5 p1 p2 G) [:: 0%N]].
Proof.
split; [by [] | by [] | by [] | by [] | ].
by have [_ _ _ _ ->] :=
  @compute_correlator_one_step algC Inputs.identity2 2 1 1
    (Inputs.unit_propagator 1 0) (Inputs.unit_propagator 0 1)
    (Inputs.unit2 0 1) erefl erefl erefl erefl.
Defined.

(** C3 (counterexample).  On the same operands the staged code gives 1,
    and the chain as the specification writes it, with the transpose on
    [Gamma . gamma5], gives 0. *)
Lemma compute_correlator_not_claimed_chain :
  let g5 := Inputs.identity2 in
  let G := Inputs.unit2 0 1 in
  let p1 := Inputs.unit_propagator 1 0 in
  let p2 := Inputs.unit_propagator 0 1 in
  [/\ item (compute_correlator g5 p1 p2 G) [:: 0%N] = 1%R,
      item (claimed_contraction g5 p1 p2 G) [:: 0%N] = 0%R
    & item (compute_correlator g5 p1 p2 G) [:: 0%N]
      <> item (claimed_contraction g5 p1 p2 G) [:: 0%N]].
Proof.
move=> g5 G p1 p2.
have code1 : item (compute_correlator g5 p1 p2 G) [:: 0%N] = 1%R.
  rewrite (@item_compute_correlator _ g5 2 1 1 p1 p2 G) //.
  rewrite /pl_dot /pl_tensordot /= !big_ord_recl !big_ord0 /=.
  rewrite !(rmorph0, rmorph1, mulr0, mul0r, addr0, add0r, mulr1).
  by apply/Creal_ReP; exact: real1.
have claim0 : item (claimed_contraction g5 p1 p2 G) [:: 0%N] = 0%R.
  rewrite /claimed_contraction /chain_trace /sc_trace /spin_mul /sc_mul
          /sc_conj /prop_at /pl_swapaxes /pl_dot /pl_tensordot /=.
  rewrite !big_ord_recl !big_ord0 /=.
  rewrite !(rmorph0, rmorph1, mulr0, mul0r, addr0, add0r, mulr1).
  by apply/Creal_ReP; exact: real0.
split=> //; rewrite code1 claim0.
by move/eqP; rewrite oner_eq0.
Qed.

(** The statement of C4 on zero propagators over two lattice sites, with
    four spin components and three colours. *)
Lemma compute_correlator_per_site_witness :
  let g := Sample.gamma in
  let p := Sample.propagator 2 in
  [/\ shape g = [:: 4; 4]%N, shape p = [:: 2; 4; 4; 3; 3]%N
    & shape (compute_correlator g p p g) = [:: 2]%N].
Proof.
split; [by [] | by [] | ].
exact: (proj1 (@compute_correlator_per_site algC Sample.gamma 4 3 2
                 (Sample.propagator 2) (Sample.propagator 2) Sample.gamma
                 erefl erefl erefl erefl)).
Defined.

(** C4 (counterexample).  Two propagators on a lattice of one time-slice
    with two spatial sites: [compute_correlator] returns two values, one
    per site, and not the single value of the one time-slice. *)
Lemma compute_correlator_not_per_time_slice :
  let T := 1%N in
  let V := 2%N in
  let p := Sample.propagator (T * V) in
  shape (compute_correlator Sample.gamma p p Sample.gamma) = [:: T * V]%N
  /\ shape (compute_correlator Sample.gamma p p Sample.gamma) <> [:: T].
Proof. by []. Qed.

(** ** The meson spectrum (C5) *)

Section MesonClaims.

Variable C : numClosedFieldType.
Local Open Scope ring_scope.

Variable cexp : C -> C.
Variable pi : C.
Variable gamma5 : ndarray C.
Variable Gammas_values : seq (seq (ndarray C)).
Variables (prop_file key : Type).
Variable keys : prop_file -> seq key.
Variable load_propagator : prop_file -> key -> result (ndarray C).

(** C5.  Let the constants hold 16 Gamma matrices, all and [gamma5] of
    shape [ns x ns]; let the lattice have [T] time-slices and positive
    spatial extents [X], [Y], [Z]; and let every key of the first file
    load from both files a propagator with one entry per lattice site.
    Then, for any momentum, [meson_spec] returns an array of shape
    [(numPairs, T, 17)] whose column 0 holds the time index
    [0, 1, ..., T - 1] for every pair and whose column [j + 1] holds the
    momentum-projected correlator of the pair for the [j]-th Gamma
    matrix. *)
Theorem meson_spec_layout (ns nc T X Y Z : nat) (momentum : C * C * C)
    (f1 f2 : prop_file) (k0 : key) :
  let Gammas := flatten Gammas_values in
  let np := size (keys f1) in
  let V := (X * Y * Z)%N in
  let psh := [:: (T * V)%N; ns; ns; nc; nc] in
  size Gammas = 16%N ->
  shape gamma5 = [:: ns; ns] ->
  all (fun G => shape G == [:: ns; ns]) Gammas ->
  (0 < X)%N -> (0 < Y)%N -> (0 < Z)%N ->
  all (fun k => loads_with_shape load_propagator f1 psh k
                && loads_with_shape load_propagator f2 psh k) (keys f1) ->
  exists (arr : ndarray C) (out : seq string),
    [/\ meson_spec cexp pi gamma5 Gammas_values keys load_propagator
          f1 f2 (T, X, Y, Z) momentum = Ok (arr, out),
        shape arr = [:: np; T; 17],
        forall i t, (i < np)%N -> (t < T)%N -> item arr [:: i; t; 0%N] = t%:R
      & forall i t j, (i < np)%N -> (t < T)%N -> (j < 16)%N ->
          let k := nth k0 (keys f1) i in
          item arr [:: i; t; j.+1]
          = projected
              (compute_correlator gamma5 (loaded load_propagator f1 k)
                 (loaded load_propagator f2 k)
                 (nth (nd_zeros C [::]) Gammas j))
              V (momentum_phase cexp pi X Y Z momentum) t].
Proof.
move=> Gammas np V psh size_G sh5 sh_G X_gt0 Y_gt0 Z_gt0 loads.
have [arr [out [run sh_arr item_arr]]] :=
  meson_spec_ok cexp pi momentum sh5 sh_G size_G k0 loads X_gt0 Y_gt0 Z_gt0.
exists arr, out; split=> // [i t lt_i lt_t|i t j lt_i lt_t lt_j] /=.
  by rewrite item_arr.
by rewrite item_arr.
Qed.

End MesonClaims.

(** The scenario of C5: one propagator pair, the lattice shape
    [(4, 2, 2, 2)] and the momentum [(0, 0, 0)] give an array of shape
    [(1, 4, 17)] with column 0 equal to [0, 1, 2, 3]. *)
Lemma meson_spec_layout_witness :
  exists (arr : ndarray algC) (out : seq string),
    [/\ meson_spec id 0%R Sample.gamma Sample.Gammas Sample.keys Sample.load
          tt tt (4, 2, 2, 2)%N (0, 0, 0)%R = Ok (arr, out),
        shape arr = [:: 1; 4; 17]%N
      & [seq item arr [:: 0; t; 0]%N | t <- iota 0 4]
        = [:: 0%:R; 1%:R; 2%:R; 3%:R]%R].
Proof.
have [arr [out [run sh_arr col0 _]]] :=
  @meson_spec_layout algC id 0%R Sample.gamma Sample.Gammas unit nat
    Sample.keys Sample.load 4 3 4 2 2 2 (0, 0, 0)%R tt tt 0%N
    erefl erefl erefl erefl erefl erefl erefl.
exists arr, out; split=> //.
by rewrite /= !col0.
Defined.

(** * Further properties of the code *)

(** ** Autocorrelation: bound, shift and scale *)

Section AutoCorrelationMore.

Variable R : realFieldType.
Local Open Scope ring_scope.

Lemma size_gt0_natr (S : seq R) : S <> [::] -> (size S)%:R != 0 :> R.
Proof. by case: S => // x S _; rewrite pnatr_eq0. Qed.

Lemma pl_mean_shift (S : seq R) (c : R) :
  S <> [::] -> pl_mean [seq x + c | x <- S] = pl_mean S + c.
Proof.
move=> /size_gt0_natr nz; rewrite /pl_mean size_map big_map big_split /=.
have -> : \sum_(i <- S) c = c * (size S)%:R.
  by rewrite big_const_seq count_predT iter_addr_0 mulr_natr.
by rewrite mulrDl mulfK.
Qed.

Lemma pl_mean_scale (S : seq R) (a : R) :
  pl_mean [seq a * x | x <- S] = a * pl_mean S.
Proof. by rewrite /pl_mean size_map big_map -mulr_sumr mulrA. Qed.

Lemma pl_roll_map (A B : Type) (f : A -> B) (a : seq A) (shift : Z) :
  pl_roll [seq f x | x <- a] shift = [seq f x | x <- pl_roll a shift].
Proof.
rewrite /pl_roll size_map; case: (size a) => [|n] //.
by rewrite map_cat map_drop map_take.
Qed.

Lemma zip_map2 (A B A' B' : Type) (f : A -> A') (g : B -> B')
    (s : seq A) (u : seq B) :
  zip [seq f x | x <- s] [seq g y | y <- u]
  = [seq (f p.1, g p.2) | p <- zip s u].
Proof. by elim: s u => [|x s IH] [|y u] //=; rewrite IH. Qed.

Lemma sum_zip1 (F : R -> R) (s u : seq R) :
  size s = size u -> \sum_(p <- zip s u) F p.1 = \sum_(x <- s) F x.
Proof.
by move=> eq_su; rewrite -[in RHS](@unzip1_zip _ _ s u) ?eq_su // big_map.
Qed.

Lemma sum_zip2 (F : R -> R) (s u : seq R) :
  size s = size u -> \sum_(p <- zip s u) F p.2 = \sum_(x <- u) F x.
Proof.
by move=> eq_su; rewrite -[in RHS](@unzip2_zip _ _ s u) ?eq_su // big_map.
Qed.

(** A sum of products of a list with one of its rotations is at most the
    sum of the squares, in absolute value. *)
Lemma sum_rot_products_le (A : seq R) (t : nat) :
  `|\sum_(p <- zip A (rot t A)) p.1 * p.2| <= \sum_(x <- A) x ^+ 2.
Proof.
have sq_rot : \sum_(x <- rot t A) x ^+ 2 = \sum_(x <- A) x ^+ 2.
  by apply: perm_big; rewrite perm_rot.
have -> : \sum_(x <- A) x ^+ 2
          = \sum_(p <- zip A (rot t A)) (p.1 ^+ 2 + p.2 ^+ 2) / 2%:R.
  rewrite -mulr_suml big_split /= (sum_zip1 (fun x => x ^+ 2)) ?size_rot //.
  rewrite (sum_zip2 (fun x => x ^+ 2)) ?size_rot // sq_rot -mulr2n.
  by rewrite -mulr_natr mulfK // pnatr_eq0.
apply: Order.POrderTheory.le_trans (ler_norm_sum _ _ _) _; apply: ler_sum => -[x y] _ /=.
rewrite ler_pdivlMr ?ltr0n // normrM -[_ ^+ 2 + _]/(x ^+ 2 + y ^+ 2).
rewrite -(real_normK (num_real x)) -(real_normK (num_real y)).
rewrite -subr_ge0.
have -> : `|x| ^+ 2 + `|y| ^+ 2 - `|x| * `|y| * 2%:R = (`|x| - `|y|) ^+ 2.
  by ring.
exact: sqr_ge0.
Qed.

End AutoCorrelationMore.

Section AutoCorrelationExtras.

Variable R : realFieldType.
Local Open Scope ring_scope.

(** The value at a lag as a sum over the deviations and their rotation. *)
Lemma auto_correlation_entry (S : seq R) (t : nat) :
  (t < size S)%N ->
  let A := sub_scalar S (pl_mean S) in
  pl_mean (mul_arrays A (sub_scalar (pl_roll S (- Z.of_nat t)) (pl_mean S)))
  = (\sum_(p <- zip A (rot t A)) p.1 * p.2) / (size S)%:R.
Proof.
move=> lt_t A; rewrite pl_roll_neg // /sub_scalar map_rot -/(sub_scalar _ _).
by rewrite -/A /pl_mean /mul_arrays big_map size_map size_zip size_rot minnn
           size_map.
Qed.

Lemma sum_zip_self (A : seq R) :
  \sum_(p <- zip A A) p.1 * p.2 = \sum_(x <- A) x ^+ 2.
Proof.
have -> : zip A A = [seq (x, x) | x <- A].
  by elim: A => [|x A IH] //=; rewrite IH.
by rewrite big_map; apply: eq_bigr => x _; rewrite expr2.
Qed.

Lemma half_lt_size (S : seq R) (t : nat) :
  (t < (size S)./2)%N -> (t < size S)%N.
Proof. by move=> lt_t; apply: leq_trans lt_t _; rewrite -divn2 leq_div. Qed.

(** X1.  No value of the autocorrelation exceeds, in absolute value, the
    value at lag 0, which is not negative. *)
Theorem auto_correlation_bounded_by_lag0 (S : seq R) :
  exists r : seq R,
    [/\ auto_correlation S = Ok r,
        forall t, (t < size r)%N -> `|nth 0 r t| <= nth 0 r 0
      & 0 <= nth 0 r 0].
Proof.
rewrite auto_correlation_eq; eexists; split; first by [].
- move=> t; rewrite size_mkseq => lt_t.
  have lt_0 : (0 < (size S)./2)%N by apply: leq_ltn_trans lt_t.
  rewrite !nth_mkseq // !auto_correlation_entry ?half_lt_size //.
  set A := sub_scalar S _; rewrite rot0 normrM normfV (@ger0_norm _ _%:R) //.
  apply: ler_wpM2r; first by rewrite invr_ge0.
  by rewrite sum_zip_self; apply: sum_rot_products_le.
case lt_0: (0 < (size S)./2)%N; last by rewrite nth_default // size_mkseq leqNgt lt_0.
rewrite nth_mkseq // auto_correlation_entry ?half_lt_size // rot0.
apply: divr_ge0 => //; rewrite sum_zip_self.
by apply: sumr_ge0 => x _; rewrite sqr_ge0.
Qed.

Lemma auto_correlation_map_add (S : seq R) (c : R) :
  auto_correlation [seq x + c | x <- S] = auto_correlation S.
Proof.
case: S => [|x0 S'] //; set S := x0 :: S'.
rewrite !auto_correlation_eq size_map pl_mean_shift //; congr Ok.
apply: eq_mkseq => t; congr pl_mean.
rewrite pl_roll_map /sub_scalar -!map_comp.
congr mul_arrays; apply: eq_map => x /=; ring.
Qed.

Lemma auto_correlation_map_mul (S : seq R) (a : R) :
  exists r : seq R,
    auto_correlation S = Ok r
    /\ auto_correlation [seq a * x | x <- S] = Ok [seq a ^+ 2 * v | v <- r].
Proof.
rewrite !auto_correlation_eq size_map pl_mean_scale; eexists; split=> //.
congr Ok; rewrite -map_comp; apply: eq_map => t /=.
rewrite pl_roll_map -(pl_mean_scale _ (a ^+ 2)); congr pl_mean.
rewrite /sub_scalar /mul_arrays -!map_comp !zip_map2 -!map_comp.
by apply: eq_map => -[x y] /=; ring.
Qed.

(** X2.  In exact arithmetic (over any real field; rounding is not
    modelled) adding one constant to every entry of the series does not
    change the autocorrelation.  In binary64 the property is lost: a shift
    of [1, 2, 3, 4] by 1e17 absorbs the entries. *)
Theorem auto_correlation_shift (S : seq R) (c : R) :
  auto_correlation [seq x + c | x <- S] = auto_correlation S.
Proof. exact: auto_correlation_map_add. Qed.

(** X3.  In exact arithmetic (over any real field; rounding is not
    modelled) multiplying every entry of the series by [a] multiplies
    every value of the autocorrelation by [a ^ 2].  In binary64 the two
    sides can differ in the last digits. *)
Theorem auto_correlation_scale (S : seq R) (a : R) :
  exists r : seq R,
    auto_correlation S = Ok r
    /\ auto_correlation [seq a * x | x <- S] = Ok [seq a ^+ 2 * v | v <- r].
Proof. exact: auto_correlation_map_mul. Qed.

(** X4.  In exact arithmetic (over any real field; rounding is not
    modelled) a constant series has no autocorrelation: every value is 0.
    In binary64 the mean of a constant series can differ from the constant
    by a rounding error, and the values are then tiny instead of 0. *)
Theorem auto_correlation_constant (n : nat) (c : R) :
  auto_correlation (nseq n c) = Ok (nseq n./2 0).
Proof.
have -> : nseq n c = [seq 0 * x + c | x <- nseq n (0 : R)].
  by rewrite map_nseq mul0r add0r.
rewrite (map_comp (fun x => x + c) (fun x => 0 * x)) auto_correlation_map_add.
have [r [run ->]] := auto_correlation_map_mul (nseq n 0) 0.
congr Ok; move: run; rewrite auto_correlation_eq => -[<-].
apply: (@eq_from_nth _ 0); rewrite size_map size_mkseq ?size_nseq // => t lt_t.
by rewrite (nth_map 0) ?size_mkseq // expr2 !mul0r nth_nseq lt_t.
Qed.

End AutoCorrelationExtras.

(** ** Binning and resampling *)

Section BinExtras.

Variable R : realFieldType.
Local Open Scope ring_scope.

(** X5.  What [bin] of the shipped module does on every input: it hands
    back the series itself for the bin size 1 and raises for every other
    bin size, [ZeroDivisionError] for 0 and [NameError] otherwise.  It
    never returns a binned series. *)
Theorem bin_returns_only_for_one (X : seq R) (binsize : Z) :
  bin X binsize
  = if (binsize =? 1)%pz then Ok X
    else if (binsize =? 0)%pz then Raise ZeroDivisionError
    else Raise (NameError "Ws").
Proof.
rewrite /bin /bin_in /py_mod.
by case: (binsize =? 1)%pz => //; case: (binsize =? 0)%pz.
Qed.

Lemma of_nat_divn (n b : nat) :
  (0 < b)%N ->
  (Z.of_nat n / Z.of_nat b)%pz = Z.of_nat (n %/ b)
  /\ (Z.of_nat n mod Z.of_nat b)%pz = Z.of_nat (n %% b).
Proof.
move=> b_gt0; have /ltP lt_r := ltn_pmod n b_gt0.
have := divn_eq n b; rewrite -plusE -multE => def_n.
have eqZ : Z.of_nat n
           = (Z.of_nat b * Z.of_nat (n %/ b) + Z.of_nat (n %% b))%pz.
  by rewrite {1}def_n Nat2Z.inj_add Nat2Z.inj_mul Z.mul_comm.
split; symmetry.
  by apply: (Z.div_unique _ _ _ (Z.of_nat (n %% b))) => //; lia.
by apply: (Z.mod_unique _ _ (Z.of_nat (n %/ b))) => //; lia.
Qed.

Lemma py_slice_of_nat (X : seq R) (lo hi : nat) :
  py_slice X (Z.of_nat lo) (Z.of_nat hi) = drop lo (take hi X).
Proof.
have bound k : slice_bound (size X) (Z.of_nat k) = minn k (size X).
  rewrite /slice_bound; case: Z.ltb_spec => [|_]; first by lia.
  by rewrite -Nat2Z.inj_min Nat2Z.id /minn; case: ltnP => /leP; lia.
rewrite /py_slice !bound.
have -> : take (minn hi (size X)) X = take hi X.
  by rewrite /minn; case: ltnP => // le_n; rewrite take_size take_oversize.
rewrite /minn; case: ltnP => // le_n.
have le_tk : (size (take hi X) <= size X)%N by rewrite size_take_min geq_minr.
by rewrite !drop_oversize // (leq_trans le_tk).
Qed.

(** X6.  The body of [bin] in a namespace where the name [Ws] resolves to
    an array as long as the series: for a bin size [b >= 2] the result
    holds the means of the consecutive blocks of [b] entries, followed,
    when [b] does not divide the length, by the mean of the shorter
    remainder. *)
Theorem bin_in_remainder_bin (g : namespace R) (X W : seq R) (b : nat) :
  load_global g "Ws" = Ok (PyArray W) -> size W = size X -> (1 < b)%N ->
  bin_in g X (Z.of_nat b)
  = Ok [seq pl_mean (take b (drop (i * b) X))
       | i <- iota 0 (size X %/ b + (size X %% b != 0))%N].
Proof.
move=> load_Ws size_W lt_b; rewrite /bin_in load_Ws /py_mod /py_floordiv.
have b_gt0 : (0 < b)%N by apply: ltn_trans lt_b.
have /ltP b_gt1 := lt_b.
have -> : (Z.of_nat b =? 1)%pz = false by apply/Z.eqb_neq; lia.
have -> : (Z.of_nat b =? 0)%pz = false by apply/Z.eqb_neq; lia.
rewrite /bind /pl_shape /first_dim /pl_size size_W.
have [-> ->] := of_nat_divn (size X) b_gt0.
set q := (size X %/ b)%N; set r := (size X %% b)%N.
have -> : (Z.of_nat q + (if (Z.of_nat r =? 0)%pz then 0 else 1))%pz
          = Z.of_nat (q + (r != 0%N)).
  rewrite -plusE Nat2Z.inj_add; congr (_ + _)%pz.
  by case: r => [|r].
rewrite pl_zeros_of_nat size_nseq xrange_of_nat.
rewrite -{1}(size_nseq (q + (r != 0%N)) (0 : R)) for_each_setitem_fill.
rewrite size_nseq; congr Ok; apply/eq_in_map => i _.
by rewrite -!Nat2Z.inj_mul !multE py_slice_of_nat take_drop mulSn.
Qed.

End BinExtras.

Lemma bin_in_remainder_bin_witness :
  [/\ load_global Inputs.globals_with_Ws "Ws" = Ok (PyArray Sample.series),
      (1 < 3)%N
    & bin_in Inputs.globals_with_Ws Sample.series 3%pz
      = Ok [:: pl_mean [:: 1; 2; 3]%R; pl_mean [:: 4]%R]].
Proof.
split; [by [] | by [] | ].
exact: (@bin_in_remainder_bin rat Inputs.globals_with_Ws Sample.series
          Sample.series 3 erefl erefl erefl).
Defined.

Section BootstrapExtras.

Variable R : realFieldType.
Local Open Scope ring_scope.

Variable rng : Type.
Variable randint : rng -> Z -> Z -> Z -> result (seq Z) * rng.

Lemma index_items_in_range (X : seq R) (idx : seq Z) :
  all (in_range (pl_size X)) idx ->
  index_items X idx = Ok [seq nth 0 X (Z.to_nat i) | i <- idx].
Proof.
elim: idx => [|i idx IH] //= /andP[/andP[/Z.leb_le ge0 /Z.ltb_lt ltn] ok].
rewrite IH // /index_item.
have -> : (i <? - Z.of_nat (size X))%pz = false by apply/Z.ltb_ge; lia.
have -> : (Z.of_nat (size X) <=? i)%pz = false.
  by apply/Z.leb_gt; move: ltn; rewrite /pl_size.
by have -> : (i <? 0)%pz = false by apply/Z.ltb_ge.
Qed.

(** X7.  When [pl.randint(0, n, n)] draws [n] integers of [0 .. n - 1] for
    a series of length [n], [bootstrap] returns the entries of the series
    at the drawn positions: a series of the same length, each of whose
    entries is an entry of the original; and the generator is left in the
    state [randint] left it in. *)
Theorem bootstrap_resample (X : seq R) (g g' : rng) (idx : seq Z) :
  randint g 0%pz (pl_size X) (pl_size X) = (Ok idx, g') ->
  size idx = size X -> all (in_range (pl_size X)) idx ->
  let r := [seq nth 0 X (Z.to_nat i) | i <- idx] in
  [/\ bootstrap randint X g = (Ok r, g'),
      size r = size X
    & all (fun x => x \in X) r].
Proof.
move=> draw size_idx ok r; split.
- by rewrite /bootstrap draw /= index_items_in_range.
- by rewrite size_map.
rewrite all_map; apply: sub_all ok => i /andP[/Z.leb_le ge0 /Z.ltb_lt ltn] /=.
apply: mem_nth; apply/ltP; move: ltn; rewrite /pl_size => lt_i.
have [to_nat_lt _] := Z2Nat.inj_lt i (Z.of_nat (size X)) ge0 (Nat2Z.is_nonneg _).
by move: (to_nat_lt lt_i); rewrite Nat2Z.id.
Qed.

End BootstrapExtras.

Lemma bootstrap_resample_witness :
  [/\ Inputs.randint_low tt 0%pz (pl_size Sample.series)
        (pl_size Sample.series) = (Ok (nseq 4 0%pz), tt),
      size (nseq 4 0%pz) = size Sample.series,
      all (in_range (pl_size Sample.series)) (nseq 4 0%pz)
    & bootstrap Inputs.randint_low Sample.series tt
      = (Ok [:: 1; 1; 1; 1]%R, tt)].
Proof.
split; [by [] | by [] | by [] | ].
by have [] := @bootstrap_resample rat unit Inputs.randint_low Sample.series
                tt tt (nseq 4 0%pz) erefl erefl erefl.
Defined.

(** ** The fits: batches and the residual *)

Section FitExtras.

Variable R : realFieldType.
Local Open Scope ring_scope.

Variables (exp sqrt : R -> R).
Variable leastsq : residual_fn R -> seq R -> seq R * seq R -> seq R * Z.




(** X10.  What [potential_params] hands to the solver for a curve of [n]
    points: the separations are [1, 2, ..., n], none of them zero, and the
    residual at the 0-based index [k] is
    [data[k] - (b0 * (k + 1) + b1 / (k + 1) + b2)].  The [1 / r] term
    enters with a plus sign (the docstring of [pair_potential] writes a
    minus sign). *)
Theorem err_func_entry (b data : seq R) (k : nat) :
  (k < size data)%N ->
  let r := pl_arange R 1 (size data + 1) in
  [/\ nth 0 r k = k.+1%:R,
      nth 0 r k != 0
    & nth 0 (err_func b r data) k
      = nth 0 data k
        - (nth 0 b 0 * k.+1%:R + nth 0 b 1 / k.+1%:R + nth 0 b 2)].
Proof.
move=> lt_k r.
have def_r : r = [seq i.+1%:R | i <- iota 0 (size data)].
  by rewrite /r /pl_arange addnK -[1%N]add1n iotaDl -map_comp.
have nth_r : nth 0 r k = k.+1%:R.
  by rewrite def_r (nth_map 0%N) ?size_iota // nth_iota.
split=> //; first by rewrite nth_r pnatr_eq0.
have size_r : size r = size data by rewrite def_r size_map size_iota.
clearbody r.
rewrite /err_func /sub_arrays /pair_potential /getitem.
rewrite (nth_map (0, 0)) ?size_zip ?size_map ?size_r ?minnn //.
by rewrite nth_zip ?size_map ?size_r //= (nth_map 0) ?size_r // nth_r.
Qed.

End FitExtras.

(** ** Loops that stop at an exception *)

Section LoopFailure.

Variables (I S : Type).

Lemma for_each_raises_inv (Inv : S -> Prop) (body : I -> S -> result S)
    (bad : I -> bool) (items : seq I) (st : S) :
  (forall i st st', Inv st -> body i st = Ok st' -> Inv st') ->
  (forall i st, Inv st -> bad i -> raises (body i st)) ->
  Inv st -> has bad items -> raises (for_each body items st).
Proof.
move=> keep bad_raises; elim: items st => [|i items IH] st //= inv_st.
case/orP=> [bad_i|bad_items].
  by have := bad_raises i st inv_st bad_i; case: (body i st).
case E: (body i st) => [st'|] //=.
exact: IH (keep _ _ _ inv_st E) bad_items.
Qed.

Lemma for_each_raises (body : I -> S -> result S) (bad : I -> bool)
    (items : seq I) (st : S) :
  (forall i st, bad i -> raises (body i st)) ->
  has bad items -> raises (for_each body items st).
Proof.
move=> bad_raises.
by apply: (@for_each_raises_inv (fun _ => True)) => // i st0 _; apply: bad_raises.
Qed.

Lemma has_enumerate2 (p : I -> bool) (s : seq I) :
  has (fun ik => p ik.2) (enumerate s) = has p s.
Proof.
rewrite /enumerate.
by rewrite -[s in RHS](@unzip2_zip _ _ (iota 0 (size s)) s) ?size_iota // /unzip2
           has_map.
Qed.

Lemma has_enumerate1 (p : nat -> bool) (s : seq I) :
  has (fun ik => p ik.1) (enumerate s) = has p (iota 0 (size s)).
Proof.
rewrite /enumerate.
by rewrite -{2}(@unzip1_zip _ _ (iota 0 (size s)) s) ?size_iota // /unzip1
           has_map.
Qed.

Lemma for_each_enumerate_post (P : nat -> S -> Prop)
    (body : nat * I -> S -> result S) (s : seq I) (st st' : S) :
  P 0%N st ->
  (forall k x st st', body (k, x) st = Ok st' -> P k st -> P k.+1 st') ->
  for_each body (enumerate s) st = Ok st' -> P (size s) st'.
Proof.
move=> P0 step; rewrite /enumerate.
have gen : forall k st0, P k st0 ->
    for_each body (zip (iota k (size s)) s) st0 = Ok st' ->
    P (k + size s)%N st'.
  elim: s => [|x s IH] k st0 Pk /=; first by rewrite addn0; case=> <-.
  case E: (body (k, x) st0) => [st1|] //= run.
  by rewrite addnS -addSn; apply: IH run; apply: step E Pk.
exact: (gen 0%N st P0).
Qed.

End LoopFailure.

(** ** The meson spectrum: failures, printed output, zero momentum *)

Section MesonExtras.

Variable C : numClosedFieldType.
Local Open Scope ring_scope.

Variable cexp : C -> C.
Variable pi : C.
Variable gamma5 : ndarray C.
Variable Gammas_values : seq (seq (ndarray C)).
Variables (prop_file key : Type).
Variable keys : prop_file -> seq key.
Variable load_propagator : prop_file -> key -> result (ndarray C).

(** With positive spatial extents [meson_spec] is the loop over the
    propagator pairs, started on the array of zeros with nothing
    printed. *)
Lemma meson_spec_loop (f1 f2 : prop_file) (T X Y Z : nat)
    (momentum : C * C * C) :
  (0 < X)%N -> (0 < Y)%N -> (0 < Z)%N ->
  meson_spec cexp pi gamma5 Gammas_values keys load_propagator f1 f2
    (T, X, Y, Z) momentum
  = for_each
      (meson_pair_step cexp gamma5 Gammas_values load_propagator f1 f2 T
         (lattice_sites X Y Z)
         [:: momentum.1.1; momentum.1.2; momentum.2]
         [:: 2%:R * pi / X%:R; 2%:R * pi / Y%:R; 2%:R * pi / Z%:R])
      (enumerate (keys f1)) (nd_zeros C [:: size (keys f1); T; 17], [::]).
Proof. by move=> X0 Y0 Z0; rewrite /meson_spec !momentum_prefactor_pos. Qed.

Lemma shape_set_column (c c' v : ndarray C) (i j : nat) :
  set_column c i j v = Ok c' -> shape c' = shape c.
Proof.
by rewrite /set_column; case: ifP => // _; case: ifP => // _ [<-].
Qed.

Lemma gamma_step_shape (prop1 prop2 : ndarray C) (T : nat)
    (sites : seq (seq nat)) (momentum prefactors : seq C) (i : nat)
    (jG : nat * ndarray C) (c c' : ndarray C) :
  gamma_step cexp gamma5 prop1 prop2 T sites momentum prefactors i jG c
  = Ok c' -> shape c' = shape c.
Proof.
rewrite /gamma_step; case: (pl_reshape2 _ _ _) => [pc|] //=.
exact: shape_set_column.
Qed.

(** X12.  A lattice with a spatial extent of zero makes [meson_spec] fail
    with the [ZeroDivisionError] of [2 * pl.pi / N], whatever the files
    hold: the prefactors are computed before any propagator is loaded. *)
Theorem meson_spec_zero_extent (f1 f2 : prop_file) (T X Y Z : nat)
    (momentum : C * C * C) :
  [|| X == 0, Y == 0 | Z == 0]%N ->
  meson_spec cexp pi gamma5 Gammas_values keys load_propagator f1 f2
    (T, X, Y, Z) momentum
  = Raise ZeroDivisionError.
Proof.
rewrite /meson_spec.
by case: X => [|X] //; case: Y => [|Y] //; case: Z => [|Z].
Qed.

(** X13.  For a first file without keys [meson_spec] loads nothing and
    prints nothing, and returns the empty array of shape [(0, T, 17)]. *)
Theorem meson_spec_no_pairs (f1 f2 : prop_file) (T X Y Z : nat)
    (momentum : C * C * C) :
  keys f1 = [::] -> (0 < X)%N -> (0 < Y)%N -> (0 < Z)%N ->
  meson_spec cexp pi gamma5 Gammas_values keys load_propagator f1 f2
    (T, X, Y, Z) momentum
  = Ok (nd_zeros C [:: 0; T; 17]%N, [::]).
Proof. by move=> nokeys X0 Y0 Z0; rewrite meson_spec_loop // nokeys. Qed.

(** X14.  [meson_spec] handles no exception of [io.load_propagator]: if a
    key of the first file fails to load from either file, the call does
    not return. *)
Theorem meson_spec_load_failure (f1 f2 : prop_file)
    (lattice_shape : nat * nat * nat * nat) (momentum : C * C * C) :
  has (fun k => raises (load_propagator f1 k)
                || raises (load_propagator f2 k)) (keys f1) ->
  raises (meson_spec cexp pi gamma5 Gammas_values keys load_propagator f1 f2
            lattice_shape momentum).
Proof.
case: lattice_shape => [[[T X] Y] Z] bad; rewrite /meson_spec.
case: (momentum_prefactor pi X) => [fx|] //=.
case: (momentum_prefactor pi Y) => [fy|] //=.
case: (momentum_prefactor pi Z) => [fz|] //=.
apply: (@for_each_raises _ _ _
          (fun ik => raises (load_propagator f1 ik.2)
                     || raises (load_propagator f2 ik.2))); last first.
  by rewrite (has_enumerate2
                (fun k => raises (load_propagator f1 k)
                          || raises (load_propagator f2 k))).
move=> [i k] st /=.
by case: (load_propagator f1 k) => [p1|] //=; case: (load_propagator f2 k).
Qed.

(** X15.  The array has room for 16 correlators per pair: if the
    dictionary of Gamma matrices holds more than 16 of them and the first
    file has a key, [meson_spec] does not return (the 17th matrix is
    written to column 17 of 17). *)
Theorem meson_spec_too_many_gammas (f1 f2 : prop_file)
    (lattice_shape : nat * nat * nat * nat) (momentum : C * C * C) :
  (0 < size (keys f1))%N -> (16 < size (flatten Gammas_values))%N ->
  raises (meson_spec cexp pi gamma5 Gammas_values keys load_propagator f1 f2
            lattice_shape momentum).
Proof.
case: lattice_shape => [[[T X] Y] Z]; rewrite /meson_spec.
case: (keys f1) => [|k ks] // _ big.
case: (momentum_prefactor pi X) => [fx|] //=.
case: (momentum_prefactor pi Y) => [fy|] //=.
case: (momentum_prefactor pi Z) => [fz|] //=.
case: (load_propagator f1 k) => [p1|] //=.
case: (load_propagator f2 k) => [p2|] //=.
rewrite /set_column /= eqxx /=.
set c1 := NdArray _ _; set F := for_each _ _ c1.
suff: raises F by case: F.
apply: (@for_each_raises_inv _ _
          (fun c => shape c = [:: (size ks).+1; T; 17]%N) _
          (fun jG => jG.1 == 16%N)) => //.
- by move=> jG c c' sh /gamma_step_shape ->.
- move=> [j G] c sh /= /eqP ->; rewrite /gamma_step.
  case: (pl_reshape2 _ _ _) => [pc|] //=.
  by rewrite /set_column sh.
by rewrite (@has_enumerate1 _ (pred1 16%N)) has_pred1 mem_iota.
Qed.

(** X16.  With the constants and files of a well-formed run (16 Gamma
    matrices of the shape of [gamma5], every key loading from both files
    a propagator with one entry per lattice site) [meson_spec] prints, for
    each pair in order, the announcement with the pair's number followed by
    [Done!], and nothing else. *)
Theorem meson_spec_output (ns nc T X Y Z : nat) (momentum : C * C * C)
    (f1 f2 : prop_file) :
  let Gammas := flatten Gammas_values in
  let V := (X * Y * Z)%N in
  let psh := [:: (T * V)%N; ns; ns; nc; nc] in
  size Gammas = 16%N ->
  shape gamma5 = [:: ns; ns] ->
  all (fun G => shape G == [:: ns; ns]) Gammas ->
  (0 < X)%N -> (0 < Y)%N -> (0 < Z)%N ->
  all (fun k => loads_with_shape load_propagator f1 psh k
                && loads_with_shape load_propagator f2 psh k) (keys f1) ->
  exists arr : ndarray C,
    meson_spec cexp pi gamma5 Gammas_values keys load_propagator f1 f2
      (T, X, Y, Z) momentum
    = Ok (arr, flatten [seq [:: pair_message i; "Done!"%string]
                       | i <- iota 0 (size (keys f1))]).
Proof.
move=> Gammas V psh size_G sh5 sh_G X0 Y0 Z0 loads.
have [arr [out run]] : exists arr out,
    meson_spec cexp pi gamma5 Gammas_values keys load_propagator f1 f2
      (T, X, Y, Z) momentum = Ok (arr, out).
  have [k0|nokeys] : key + (keys f1 = [::]).
  - by case: (keys f1) => [|k ks]; [right | left].
  - have [arr [out [run _ _]]] :=
      meson_spec_ok cexp pi momentum sh5 sh_G size_G k0 loads X0 Y0 Z0.
    by exists arr, out.
  by eexists; eexists; rewrite meson_spec_loop // nokeys.
exists arr; rewrite run; congr (Ok (_, _)).
move: run; rewrite meson_spec_loop // => run.
pose P k (st : ndarray C * seq string) :=
  st.2 = flatten [seq [:: pair_message i; "Done!"%string] | i <- iota 0 k].
apply: (@for_each_enumerate_post _ _ P _ _ _ _ _ _ run) => //.
move=> k x [c o] [c' o'] run_k; rewrite /P => def_o.
have -> : iota 0 k.+1 = rcons (iota 0 k) k by rewrite -addn1 iotaD cats1.
rewrite map_rcons -cats1 flatten_cat -def_o.
move: run_k; rewrite /meson_pair_step /=.
case: (load_propagator f1 x) => [p1|] //=.
case: (load_propagator f2 x) => [p2|] //=.
case: (set_column _ _ _ _) => [c1|] //=.
case: (for_each _ _ _) => [c2|] //= [_ <-].
by rewrite -!cats1 -catA.
Qed.

(** X17.  At zero momentum, for an exponential with [exp(0) = 1], the
    projection is the plain sum over the time-slice: column [j + 1] of a
    pair holds at [t] the sum of the position-space correlator of the
    [j]-th Gamma matrix over the spatial sites of the time-slice [t]. *)
Theorem meson_spec_zero_momentum (ns nc T X Y Z : nat) (f1 f2 : prop_file)
    (k0 : key) :
  let Gammas := flatten Gammas_values in
  let np := size (keys f1) in
  let V := (X * Y * Z)%N in
  let psh := [:: (T * V)%N; ns; ns; nc; nc] in
  cexp 0 = 1 ->
  size Gammas = 16%N ->
  shape gamma5 = [:: ns; ns] ->
  all (fun G => shape G == [:: ns; ns]) Gammas ->
  (0 < X)%N -> (0 < Y)%N -> (0 < Z)%N ->
  all (fun k => loads_with_shape load_propagator f1 psh k
                && loads_with_shape load_propagator f2 psh k) (keys f1) ->
  exists (arr : ndarray C) (out : seq string),
    meson_spec cexp pi gamma5 Gammas_values keys load_propagator f1 f2
      (T, X, Y, Z) (0, 0, 0) = Ok (arr, out)
    /\ forall i t j, (i < np)%N -> (t < T)%N -> (j < 16)%N ->
         let k := nth k0 (keys f1) i in
         item arr [:: i; t; j.+1]
         = \sum_(s < V)
             item (compute_correlator gamma5 (loaded load_propagator f1 k)
                     (loaded load_propagator f2 k)
                     (nth (nd_zeros C [::]) Gammas j))
                  [:: (t * V + s)%N].
Proof.
move=> Gammas np V psh cexp0 size_G sh5 sh_G X0 Y0 Z0 loads.
have [arr [out [run _ item_arr]]] :=
  meson_spec_ok cexp pi (0, 0, 0) sh5 sh_G size_G k0 loads X0 Y0 Z0.
exists arr, out; split=> // i t j lt_i lt_t lt_j k.
set cc := compute_correlator _ _ _ _.
have -> : item arr [:: i; t; j.+1]
          = projected cc V (momentum_phase cexp pi X Y Z (0, 0, 0)) t.
  by rewrite item_arr.
have phase1 s : momentum_phase cexp pi X Y Z (0, 0, 0) s = 1.
  rewrite /momentum_phase big1 ?mulr0 // => c _ /=.
  by case: c => [[|[|[|c]]] lt_c] //=; rewrite mulr0 mul0r.
have real_cc ix : item cc ix \is Num.real by rewrite /cc /= Creal_Re.
rewrite /projected (eq_bigr (fun s : 'I_V => item cc [:: (t * V + s)%N]));
  first by move=> s _; rewrite phase1 mulr1.
by apply/Creal_ReP; apply: rpred_sum => s _.
Qed.

(** X18.  Propagators whose number of sites is not the number of lattice
    sites [T * X * Y * Z] are rejected by the reshape of the first
    correlator: with a first key whose propagators have [n] sites each,
    [meson_spec] fails with [ValueError]. *)
Theorem meson_spec_wrong_site_count (ns nc n T X Y Z : nat)
    (momentum : C * C * C) (f1 f2 : prop_file) (k : key) (ks : seq key)
    (p1 p2 G : ndarray C) (Gs : seq (ndarray C)) :
  keys f1 = k :: ks ->
  load_propagator f1 k = Ok p1 -> load_propagator f2 k = Ok p2 ->
  flatten Gammas_values = G :: Gs ->
  shape gamma5 = [:: ns; ns] -> shape G = [:: ns; ns] ->
  shape p1 = [:: n; ns; ns; nc; nc] -> shape p2 = [:: n; ns; ns; nc; nc] ->
  n != (T * (X * Y * Z))%N ->
  (0 < X)%N -> (0 < Y)%N -> (0 < Z)%N ->
  meson_spec cexp pi gamma5 Gammas_values keys load_propagator f1 f2
    (T, X, Y, Z) momentum
  = Raise ValueError.
Proof.
move=> def_keys load1 load2 def_G sh5 shG sh1 sh2 ne_n X0 Y0 Z0.
rewrite meson_spec_loop // def_keys /= /meson_pair_step load1 load2 /=.
rewrite /set_column /= eqxx /= def_G /= /gamma_step.
have := @shape_compute_correlator _ _ ns nc _ _ p2 _ sh5 shG sh1.
move: (compute_correlator _ _ _ _) => cc sh_cc.
by rewrite /pl_reshape2 sh_cc size_lattice_sites eqseq_cons (negPf ne_n).
Qed.

End MesonExtras.

(** The lattice [(4, 2, 0, 2)] has no sites along one axis. *)
Lemma meson_spec_zero_extent_witness :
  [|| 2 == 0, 0 == 0 | 2 == 0]%N
  /\ meson_spec id 0%R Sample.gamma Sample.Gammas Sample.keys Sample.load
       tt tt (4, 2, 0, 2)%N (0, 0, 0)%R
     = Raise ZeroDivisionError.
Proof.
split; first by [].
exact: (@meson_spec_zero_extent algC id 0%R Sample.gamma Sample.Gammas
          unit nat Sample.keys Sample.load tt tt 4 2 0 2 (0, 0, 0)%R erefl).
Defined.

(** A file without keys on the lattice [(4, 2, 2, 2)]. *)
Lemma meson_spec_no_pairs_witness :
  Inputs.no_keys tt = [::]
  /\ meson_spec id 0%R Sample.gamma Sample.Gammas Inputs.no_keys Sample.load
       tt tt (4, 2, 2, 2)%N (0, 0, 0)%R
     = Ok (nd_zeros algC [:: 0; 4; 17]%N, [::]).
Proof.
split; first by [].
exact: (@meson_spec_no_pairs algC id 0%R Sample.gamma Sample.Gammas
          unit nat Inputs.no_keys Sample.load tt tt 4 2 2 2 (0, 0, 0)%R
          erefl erefl erefl erefl).
Defined.

(** The key [0] is in neither file. *)
Lemma meson_spec_load_failure_witness :
  has (fun k => raises (Inputs.load_fails tt k)
                || raises (Inputs.load_fails tt k)) (Sample.keys tt)
  /\ raises (meson_spec id 0%R Sample.gamma Sample.Gammas Sample.keys
               Inputs.load_fails tt tt (4, 2, 2, 2)%N (0, 0, 0)%R).
Proof.
split; first by [].
exact: (@meson_spec_load_failure algC id 0%R Sample.gamma Sample.Gammas
          unit nat Sample.keys Inputs.load_fails tt tt (4, 2, 2, 2)%N
          (0, 0, 0)%R erefl).
Defined.

(** One pair and 17 Gamma matrices. *)
Lemma meson_spec_too_many_gammas_witness :
  [/\ (0 < size (Sample.keys tt))%N,
      (16 < size (flatten Inputs.Gammas17))%N
    & raises (meson_spec id 0%R Sample.gamma Inputs.Gammas17 Sample.keys
                Sample.load tt tt (4, 2, 2, 2)%N (0, 0, 0)%R)].
Proof.
split; [by [] | by [] | ].
exact: (@meson_spec_too_many_gammas algC id 0%R Sample.gamma Inputs.Gammas17
          unit nat Sample.keys Sample.load tt tt (4, 2, 2, 2)%N (0, 0, 0)%R
          erefl erefl).
Defined.

(** One pair on the lattice [(4, 2, 2, 2)]: two lines are printed. *)
Lemma meson_spec_output_witness :
  exists arr : ndarray algC,
    meson_spec id 0%R Sample.gamma Sample.Gammas Sample.keys Sample.load
      tt tt (4, 2, 2, 2)%N (0, 0, 0)%R
    = Ok (arr, [:: "Calculating correlators for propagator pair 0... ";
                   "Done!"]%string).
Proof.
exact: (@meson_spec_output algC id 0%R Sample.gamma Sample.Gammas unit nat
          Sample.keys Sample.load 4 3 4 2 2 2 (0, 0, 0)%R tt tt
          erefl erefl erefl erefl erefl erefl erefl).
Defined.

(** One pair on the lattice [(4, 2, 2, 2)] at zero momentum. *)
Lemma meson_spec_zero_momentum_witness :
  Inputs.one_plus 0%R = 1%R
  /\ exists (arr : ndarray algC) (out : seq string),
       meson_spec Inputs.one_plus 0%R Sample.gamma Sample.Gammas Sample.keys
         Sample.load tt tt (4, 2, 2, 2)%N (0, 0, 0)%R = Ok (arr, out)
       /\ item arr [:: 0; 1; 1]%N
          = (\sum_(s < 8)
               item (compute_correlator Sample.gamma (Sample.propagator 32)
                       (Sample.propagator 32) Sample.gamma)
                    [:: (1 * 8 + s)%N])%R.
Proof.
have cexp0 : Inputs.one_plus 0%R = 1%R by exact: addr0.
split; first by [].
have [arr [out [run item_arr]]] :=
  @meson_spec_zero_momentum algC Inputs.one_plus 0%R Sample.gamma
    Sample.Gammas unit nat Sample.keys Sample.load 4 3 4 2 2 2 tt tt 0%N
    cexp0 erefl erefl erefl erefl erefl erefl erefl.
exists arr, out; split; first by [].
exact: (item_arr 0%N 1%N 0%N erefl erefl erefl).
Defined.

(** Propagators with 32 sites on the lattice [(3, 2, 2, 2)] of 24 sites. *)
Lemma meson_spec_wrong_site_count_witness :
  [/\ shape (Sample.propagator 32) = [:: 32; 4; 4; 3; 3]%N,
      32 != (3 * (2 * 2 * 2))%N
    & meson_spec id 0%R Sample.gamma Sample.Gammas Sample.keys Sample.load
        tt tt (3, 2, 2, 2)%N (0, 0, 0)%R
      = Raise ValueError].
Proof.
split; [by [] | by [] | ].
exact: (@meson_spec_wrong_site_count algC id 0%R Sample.gamma Sample.Gammas
          unit nat Sample.keys Sample.load 4 3 32 3 2 2 2 (0, 0, 0)%R tt tt
          0%N [::] (Sample.propagator 32) (Sample.propagator 32)
          Sample.gamma (nseq 15 Sample.gamma)
          erefl erefl erefl erefl erefl erefl erefl erefl erefl erefl erefl
          erefl).
Defined.

(** ** The correlator is local *)

Section CorrelatorExtras.

Variable C : numClosedFieldType.
Local Open Scope ring_scope.

Variable gamma5 : ndarray C.

(** X19.  The correlator at a site is computed from the entries of the two
    propagators at that site alone: pairs of well-shaped propagators that
    agree at the site [x] give the same correlator at [x]. *)
Theorem compute_correlator_local (ns nc n : nat)
    (p1 p2 q1 q2 Gamma : ndarray C) (x : nat) :
  shape gamma5 = [:: ns; ns] -> shape Gamma = [:: ns; ns] ->
  shape p1 = [:: n; ns; ns; nc; nc] -> shape p2 = [:: n; ns; ns; nc; nc] ->
  shape q1 = [:: n; ns; ns; nc; nc] -> shape q2 = [:: n; ns; ns; nc; nc] ->
  (forall i j a b, item p1 [:: x; i; j; a; b] = item q1 [:: x; i; j; a; b]) ->
  (forall i j a b, item p2 [:: x; i; j; a; b] = item q2 [:: x; i; j; a; b]) ->
  item (compute_correlator gamma5 p1 p2 Gamma) [:: x]
  = item (compute_correlator gamma5 q1 q2 Gamma) [:: x].
Proof.
move=> sh5 shG shp1 shp2 shq1 shq2 eq1 eq2.
rewrite (item_compute_correlator p2 sh5 shG shp1).
rewrite (item_compute_correlator q2 sh5 shG shq1).
congr ('Re _); do 4![apply: eq_bigr => ? _].
by congr (_ * _); apply: eq_bigr => ? _; rewrite /= ?eq1 ?eq2.
Qed.

End CorrelatorExtras.

(** The all-zero propagator and a propagator that is non-zero at site 7
    only agree at site 5. *)
Lemma compute_correlator_local_witness :
  (forall i j a b : nat,
     item (Sample.propagator 32) [:: 5%N; i; j; a; b]
     = item (Inputs.propagator_at 7) [:: 5%N; i; j; a; b])
  /\ item (compute_correlator Sample.gamma (Sample.propagator 32)
             (Sample.propagator 32) Sample.gamma) [:: 5%N]
     = item (compute_correlator Sample.gamma (Inputs.propagator_at 7)
               (Sample.propagator 32) Sample.gamma) [:: 5%N].
Proof.
split; first by [].
exact: (@compute_correlator_local algC Sample.gamma 4 3 32
          (Sample.propagator 32) (Sample.propagator 32)
          (Inputs.propagator_at 7) (Sample.propagator 32) Sample.gamma 5
          erefl erefl erefl erefl erefl erefl
          (fun _ _ _ _ => erefl) (fun _ _ _ _ => erefl)).
Defined.

(** The residual at the second point of the curve [1, 2, 3, 4] for the
    parameters [(1, 1, 1)]. *)
Lemma err_func_entry_witness :
  (1 < size Sample.series)%N
  /\ nth 0%R (err_func [:: 1; 1; 1]%R (pl_arange rat 1 (4 + 1)) Sample.series)
          1
     = (nth 0 Sample.series 1 - (1 * 2%:R + 1 / 2%:R + 1))%R.
Proof.
split; first by [].
by have [_ _ ->] := @err_func_entry rat [:: 1; 1; 1]%R Sample.series 1 erefl.
Defined.
